(** * Verification of fio's [tools/hist/fiologparser_hist.py]

    The development embeds the numeric core of the log parser: the
    bin-index decoder, the k-way merge of the per-job histogram logs, the
    interval aggregator and the weighted percentile estimator.

    Conventions.
    - Python integers are [Z]; positions in arrays are [nat].
    - Finite [float64] values are idealised as exact rationals ([Q]):
      rounding is not modelled.  The non-finite values are kept where the
      code can produce or test them (division in [weights]), as the type
      [npfloat].
    - A Python exception is [None] (or a dedicated constructor) in the
      result of the function that raises it.
    - A numpy array is a [list]; a scalar broadcast against an array is
      written out with [repeat]. *)

From Stdlib Require Import ZArith QArith Qminmax Qround List Lia Lqa Bool.
From Stdlib Require Import Sorting Permutation Setoid Morphisms.
Import ListNotations.

(** ** Small array helpers *)

(** Element-wise binary operation on two arrays of one shape. *)
Fixpoint zip_with {A B C : Type} (f : A -> B -> C) (l : list A) (l' : list B) : list C :=
  match l, l' with
  | a :: t, b :: t' => f a b :: zip_with f t t'
  | _, _ => []
  end.

(** [np.where(cond)[0]]: the ascending positions at which [p] holds. *)
Fixpoint where_from {A : Type} (p : A -> bool) (i : nat) (l : list A) : list nat :=
  match l with
  | [] => []
  | x :: t => if p x then i :: where_from p (S i) t else where_from p (S i) t
  end.

Definition np_where {A : Type} (p : A -> bool) (l : list A) : list nat := where_from p 0 l.

(** [l[idx]] for an index array [idx]. *)
Definition at_idx {A : Type} (d : A) (l : list A) (idx : list nat) : list A :=
  map (fun i => nth i l d) idx.

(** [l[i] = x]; nothing happens out of range (never reached below). *)
Fixpoint upd {A : Type} (i : nat) (x : A) (l : list A) : list A :=
  match l, i with
  | [], _ => []
  | _ :: t, O => x :: t
  | h :: t, S i' => h :: upd i' x t
  end.

(** [np.sum] of an integer array. *)
Definition zsum (l : list Z) : Z := fold_left Z.add l 0%Z.

(** ** float64 results that may be non-finite *)

Inductive npfloat : Type :=
| Fin (q : Q)
| PInf
| NInf
| NaN.

(** numpy's float division of two finite values, as [weights] uses it:
    [x / 0] is an infinity of the sign of [x], [0 / 0] is [nan]; no
    exception is raised.  The zero divisor is the [+0.0] that [e - s]
    gives for equal finite [e] and [s]; a divisor of [-0.0], which takes
    zeros of opposite sign in the timestamps, and quotients beyond the
    range of a float are not modelled. *)
Definition np_div (n d : Q) : npfloat :=
  if Qeq_bool d 0 then
    if Qeq_bool n 0 then NaN
    else if Qle_bool 0 n then PInf else NInf
  else Fin (n / d).

Definition np_isnan (w : npfloat) : bool :=
  match w with NaN => true | _ => false end.

Definition np_add (a b : npfloat) : npfloat :=
  match a, b with
  | NaN, _ | _, NaN => NaN
  | PInf, NInf | NInf, PInf => NaN
  | PInf, _ | _, PInf => PInf
  | NInf, _ | _, NInf => NInf
  | Fin x, Fin y => Fin (x + y)
  end.

(** Product of an integer count with a float. *)
Definition np_scale (h : Z) (w : npfloat) : npfloat :=
  match w with
  | Fin x => Fin (inject_Z h * x)
  | NaN => NaN
  | PInf => if (h =? 0)%Z then NaN else if (0 <? h)%Z then PInf else NInf
  | NInf => if (h =? 0)%Z then NaN else if (0 <? h)%Z then NInf else PInf
  end.

(** ** [weighted_percentile] (lines 23-39) *)

Definition Qlt_bool (x y : Q) : bool := negb (Qle_bool y x).

(** [np.argsort]: positions of [vs] in ascending order of value, by
    insertion.  Equal values keep their input order here; numpy's default
    sort leaves that order unspecified. *)
Fixpoint argsort_insert (p : Q * nat) (l : list (Q * nat)) : list (Q * nat) :=
  match l with
  | [] => [p]
  | h :: t => if Qlt_bool (fst h) (fst p) then h :: argsort_insert p t else p :: l
  end.

Definition argsort (vs : list Q) : list nat :=
  map snd (fold_right argsort_insert [] (combine vs (seq 0 (length vs)))).

Fixpoint cumsum_from (acc : Q) (l : list Q) : list Q :=
  match l with
  | [] => []
  | x :: t => (acc + x) :: cumsum_from (acc + x) t
  end.

Definition cumsum (l : list Q) : list Q := cumsum_from 0 l.

Definition np_sum (l : list Q) : Q := fold_left Qplus l 0.

(** [np.interp] at one point [x], for sample points [xp] in ascending
    order: [fp[0]] left of the first point, [fp[-1]] right of the last
    one, the chord through the two bracketing points in between. *)
Fixpoint interp_from (x x0 y0 : Q) (xp fp : list Q) : Q :=
  match xp, fp with
  | x1 :: xp', y1 :: fp' =>
      if Qle_bool x1 x then interp_from x x1 y1 xp' fp'
      else (y1 - y0) / (x1 - x0) * (x - x0) + y0
  | _, _ => y0
  end.

Definition interp1 (x : Q) (xp fp : list Q) : option Q :=
  match xp, fp with
  | x0 :: xp', y0 :: fp' =>
      Some (if Qle_bool x0 x then interp_from x x0 y0 xp' fp' else y0)
  | _, _ => None
  end.

(** Sample points in ascending order, ties allowed. *)
Fixpoint nondecreasing (l : list Q) : bool :=
  match l with
  | [] => true
  | x :: t =>
      match t with
      | [] => true
      | y :: _ => Qle_bool x y && nondecreasing t
      end
  end.

(** [np.interp(xs, xp, fp)].  [None] is the [ValueError] numpy raises for
    an empty array of sample points and for [xp] and [fp] of different
    lengths.  It also stands for sample points that are not in ascending
    order: numpy bisects [xp] without checking it, and the chord it then
    reads depends on the course of that search, which [interp_from] does
    not follow; the model gives no result there. *)
Definition interp (xs xp fp : list Q) : option (list Q) :=
  match xp with
  | [] => None
  | _ =>
      if negb (length xp =? length fp)%nat then None
      else if negb (nondecreasing xp) then None
      else Some (map (fun x => match interp1 x xp fp with Some y => y | None => 0 end) xs)
  end.

(** [None] is an exception or a case the rational model has no value
    for: [ws] shorter than [vs] ([IndexError]), no value at all
    ([np.interp] raises), a total weight of zero (the code divides by it
    without raising; its cdf is then made of [nan] or infinities, which
    [np.interp] still reads), and a cdf that is not in ascending order
    (weights of both signs; see [interp]). *)
Definition weighted_percentile (percs vs ws : list Q) : option (list Q) :=
  if (length ws <? length vs)%nat then None
  else
    let idx := argsort vs in
    let vs := at_idx 0 vs idx in
    let ws := at_idx 0 ws idx in
    let total := np_sum ws in
    if Qeq_bool total 0 then None
    else
      let cdf := zip_with (fun c w => 100 * (c - w / 2) / total) (cumsum ws) ws in
      interp percs cdf vs.

(** Lines 64-65. *)
Definition weighted_average (vs ws : list Q) : Q :=
  np_sum (zip_with Qmult vs ws) / np_sum ws.

(** The midpoint of step [k] of the empirical cdf of [n] values. *)
Definition midpoint_position (n k : nat) : Q :=
  100 * (inject_Z (Z.of_nat k) + (1#2)) / inject_Z (Z.of_nat n).

Definition midpoint_positions (n : nat) : list Q :=
  map (midpoint_position n) (seq 0 n).

(** The unweighted reference the specification compares with, written
    without [np.argsort] and [np.interp]: for [n] values [s] in ascending
    order, the k-th smallest sits at percentile 100 (k + 1/2) / n, so
    percentile [p] is read at the fractional rank p n / 100 - 1/2, kept
    within [0, n - 1], between the two values at the ranks around it. *)
Definition hazen_rank (p : Q) (n : nat) : Q :=
  Qmax 0 (Qmin (inject_Z (Z.of_nat n) - 1) (p * inject_Z (Z.of_nat n) / 100 - (1#2))).

Definition hazen_percentile (s : list Q) (p : Q) : Q :=
  let h := hazen_rank p (length s) in
  let k := Z.to_nat (Qfloor h) in
  let f := h - inject_Z (Qfloor h) in
  nth k s 0 + f * (nth (S k) s 0 - nth k s 0).

(** ** [weights] (lines 41-62) *)

(** [start_ts] and [end_ts] are arrays of one shape; the warning written
    to stderr when a [nan] is found is not modelled. *)
Definition weights (start_ts end_ts : list Q) (start end_ : Q) : list npfloat :=
  let sbounds := map (fun s => Qmax s start) start_ts in
  let ebounds := map (fun e => Qmin e end_) end_ts in
  let ws := zip_with np_div (zip_with Qminus ebounds sbounds)
                            (zip_with Qminus end_ts start_ts) in
  map (fun w => if np_isnan w then Fin 0 else w) ws.

(** The quotient [weights] computes for a sample of positive length. *)
Definition overlap_fraction (s e start end_ : Q) : Q :=
  (Qmin e end_ - Qmax s start) / (e - s).

(** ** The merge of the input logs (lines 84-133) *)

Section MergerModel.
Local Open Scope Z_scope.

(** One line of a [*_clat_hist*] log: end time, the two columns the
    parser drops, and the histogram counts. *)
Record raw_row : Type :=
  { raw_time : Z; raw_rw : Z; raw_sz : Z; raw_hists : list Z }.

(** A buffered row, [times] joined with [hists] (lines 94-97). *)
Definition row : Type := (Z * list Z)%type.

(** A yielded row: end time, index of the source file, counts. *)
Definition sample : Type := (Z * nat * list Z)%type.

Definition s_time (s : sample) : Z := fst (fst s).
Definition s_file (s : sample) : nat := snd (fst s).
Definition s_hist (s : sample) : list Z := snd s.

(** pandas' [TextFileReader]: the chunk size it was opened with and the
    rows it has not delivered yet. *)
Record reader : Type := { chunksize : nat; pending : list raw_row }.

(** What lines 110-117 do with [pandas.read_csv(fp, dtype=int,
    header=None, chunksize=sz)]: a reader; [rdrs[fp] = None] for the
    [ValueError] of a file without any column (lines 113-115); or the
    exception raised again (line 117). *)
Inductive csv_result : Type :=
| CsvReader (r : reader)
| CsvNone
| CsvRaise.

(** pandas checks the chunk size before it looks at the file: a chunk
    size below 1 is a [ValueError] of its own, which line 117 raises
    again, whatever the file holds. *)
Definition read_csv (content : list raw_row) (sz : nat) : csv_result :=
  if (sz =? 0)%nat then CsvRaise
  else
    match content with
    | [] => CsvNone
    | _ => CsvReader {| chunksize := sz; pending := content |}
    end.

(** [rdrs[fp]] when line 117 was not reached. *)
Definition rdr_of (c : csv_result) : option reader :=
  match c with
  | CsvReader r => Some r
  | _ => None
  end.

(** Whether the loop of lines 109-117 ends in the exception of line 117. *)
Definition setup_raises (fps : list (list raw_row)) (sz : nat) : bool :=
  existsb (fun content => match read_csv content sz with
                          | CsvRaise => true
                          | _ => false
                          end) fps.

(** [TextFileReader.read(nrows)].  An exhausted reader raises
    [StopIteration] ([None]).  Without a row count, pandas delivers every
    remaining row: [read()] is what [read_csv] itself calls to load a
    whole file, and it is [get_chunk()] that reads [chunksize] rows, as
    [read(nrows=chunksize)]. *)
Definition TextFileReader_read (nrows : option nat) (r : reader)
  : option (list raw_row * reader) :=
  match pending r with
  | [] => None
  | _ =>
      match nrows with
      | None => Some (pending r, {| chunksize := chunksize r; pending := [] |})
      | Some n => Some (firstn n (pending r),
                        {| chunksize := chunksize r; pending := skipn n (pending r) |})
      end
  end.

Definition strip_row (r : raw_row) : row := (raw_time r, raw_hists r).

(** [read_chunk], with the row count that reaches [rdr.read] made a
    parameter.  The result is the new buffer ([None] after
    [StopIteration] or [AttributeError]) and the reader afterwards. *)
Definition read_chunk_with (nrows : option nat) (rdr : option reader) (sz : nat)
  : option (list row) * option reader :=
  match rdr with
  | None => (None, None)
  | Some r =>
      match TextFileReader_read nrows r with
      | None => (None, Some r)
      | Some (new_arr, r') => (Some (map strip_row new_arr), Some r')
      end
  end.

(** Line 89 calls [rdr.read()] with no argument; [sz] is not used. *)
Definition read_chunk (rdr : option reader) (sz : nat)
  : option (list row) * option reader :=
  read_chunk_with None rdr sz.

(** [rdrs[fp]] and [arrs[fp]] side by side.  The files of [fps] are
    distinct objects, so the two dictionaries are kept as one list with an
    entry per position of [fps], and a file is named by its position. *)
Record file_state : Type := { f_rdr : option reader; f_arr : option (list row) }.

Definition gen_state : Type := list file_state.

Inductive min_result : Type :=
| MinAt (fp : nat)
| MinValueError
| MinIndexError.

(** [arrs.get(fp)[0][0]] *)
Definition head_time (arrs : gen_state) (fp : nat) : option Z :=
  match nth_error arrs fp with
  | Some {| f_arr := Some (r :: _) |} => Some (fst r)
  | _ => None
  end.

Definition key_of (arrs : gen_state) (fp : nat) : Z :=
  match head_time arrs fp with Some t => t | None => 0 end.

(** Python's [min(iterable, key=...)]: the first of the minimal elements. *)
Fixpoint py_min_by (key : nat -> Z) (best : nat) (l : list nat) : nat :=
  match l with
  | [] => best
  | x :: t => py_min_by key (if key x <? key best then x else best) t
  end.

Definition not_none (arrs : gen_state) (fp : nat) : bool :=
  match nth_error arrs fp with
  | Some {| f_arr := Some _ |} => true
  | _ => false
  end.

(** [get_min] (lines 101-103).  [min] of an empty list raises
    [ValueError]; the key of an empty buffer would raise [IndexError]. *)
Definition get_min (fps : list nat) (arrs : gen_state) : min_result :=
  match filter (not_none arrs) fps with
  | [] => MinValueError
  | fp :: rest =>
      if forallb (fun x => match head_time arrs x with Some _ => true | None => false end)
                 (fp :: rest)
      then MinAt (py_min_by (key_of arrs) fp rest)
      else MinIndexError
  end.

Inductive gen_result : Type :=
| Yield (s : sample) (st : gen_state)
| Return
| Raise.

(** Lines 108-120: one reader per file, then the first chunk of each.
    This is the state at line 121, reached when [setup_raises] is false. *)
Definition gen_init_with (nrows : option nat) (fps : list (list raw_row)) (sz : nat)
  : gen_state :=
  map (fun content =>
         let rdr := rdr_of (read_csv content sz) in
         let '(a, rdr') := read_chunk_with nrows rdr sz in
         {| f_rdr := rdr'; f_arr := a |}) fps.

(** One turn of the loop of lines 121-133, up to the next [yield]. *)
Definition gen_next_with (nrows : option nat) (sz : nat) (st : gen_state) : gen_result :=
  match get_min (seq 0 (length st)) st with
  | MinValueError => Return
  | MinIndexError => Raise
  | MinAt fp =>
      match nth_error st fp with
      | Some {| f_rdr := rdr; f_arr := Some (r :: rest) |} =>
          let s := (fst r, fp, snd r) in
          match rest with
          | [] =>
              let '(a, rdr') := read_chunk_with nrows rdr sz in
              Yield s (upd fp {| f_rdr := rdr'; f_arr := a |} st)
          | _ => Yield s (upd fp {| f_rdr := rdr; f_arr := Some rest |} st)
          end
      | _ => Raise
      end
  end.

(** Everything the generator yields until it returns; [None] when the
    fuel runs out first or an exception escapes. *)
Fixpoint gen_run_with (nrows : option nat) (sz : nat) (fuel : nat) (st : gen_state)
  : option (list sample) :=
  match fuel with
  | O => None
  | S fuel' =>
      match gen_next_with nrows sz st with
      | Return => Some []
      | Raise => None
      | Yield s st' =>
          match gen_run_with nrows sz fuel' st' with
          | Some out => Some (s :: out)
          | None => None
          end
      end
  end.

Definition total_rows (fps : list (list raw_row)) : nat :=
  fold_right (fun f n => (length f + n)%nat) 0%nat fps.

Definition gen_init (fps : list (list raw_row)) (sz : nat) : gen_state :=
  gen_init_with None fps sz.

Definition gen_next (sz : nat) (st : gen_state) : gen_result :=
  gen_next_with None sz st.

(** The whole output of [histogram_generator(ctx, fps, sz)]; [None] when
    an exception escapes, first of all the one of line 117. *)
Definition histogram_generator (fps : list (list raw_row)) (sz : nat)
  : option (list sample) :=
  if setup_raises fps sz then None
  else gen_run_with None sz (S (total_rows fps)) (gen_init fps sz).

(** Number of rows held in each per-file buffer. *)
Definition buffered (st : gen_state) : list nat :=
  map (fun f => match f_arr f with Some a => length a | None => 0%nat end) st.

Definition buffers_within (sz : nat) (st : gen_state) : Prop :=
  Forall (fun n => (n <= sz)%nat) (buffered st).

(** *** Vocabulary of the merge proofs *)

(** What a file still has to contribute: its buffer, then what its
    reader has not delivered. *)
Definition rest_of (f : file_state) : list row :=
  (match f_arr f with Some a => a | None => [] end) ++
  (match f_rdr f with Some r => map strip_row (pending r) | None => [] end).

Definition remaining (st : gen_state) : list (list row) := map rest_of st.

(** A buffer is never an empty array, and a file without buffer has
    nothing left to read. *)
Definition file_ok (f : file_state) : Prop :=
  match f_arr f with
  | Some [] => False
  | Some _ => True
  | None => match f_rdr f with Some r => pending r = [] | None => True end
  end.

Definition gen_inv (st : gen_state) : Prop := Forall file_ok st.

Definition tag (i : nat) (r : row) : sample := (fst r, i, snd r).

Fixpoint tag_from (i : nat) (rem : list (list row)) : list sample :=
  match rem with
  | [] => []
  | l :: t => map (tag i) l ++ tag_from (S i) t
  end.

(** Every input record, tagged with the position of its file. *)
Definition tagged_union (fps : list (list raw_row)) : list sample :=
  tag_from 0 (map (map strip_row) fps).

(** The records the merge has to deliver, read off the input alone: for
    each line of file number [i], its end time, [i] and its counts. *)
Fixpoint tagged_input_from (i : nat) (fps : list (list raw_row)) : list sample :=
  match fps with
  | [] => []
  | f :: t => map (fun r => (raw_time r, i, raw_hists r)) f ++ tagged_input_from (S i) t
  end.

Definition tagged_input (fps : list (list raw_row)) : list sample :=
  tagged_input_from 0 fps.

Definition time_le (a b : sample) : Prop := s_time a <= s_time b.

(** Order of the merge: by end time, then by file position. *)
Definition merge_le (a b : sample) : Prop :=
  s_time a < s_time b \/ (s_time a = s_time b /\ (s_file a <= s_file b)%nat).

Definition row_le (a b : row) : Prop := fst a <= fst b.

Definition raw_le (a b : raw_row) : Prop := raw_time a <= raw_time b.

Definition count_rows (rem : list (list row)) : nat :=
  fold_right (fun l n => (length l + n)%nat) 0%nat rem.

Definition mk_row (t : Z) (h : list Z) : raw_row :=
  {| raw_time := t; raw_rw := 0; raw_sz := 4096; raw_hists := h |}.

End MergerModel.

(** ** The bin decoder (lines 135-173) *)

Definition FIO_IO_U_PLAT_BITS : Z := 6.
Definition FIO_IO_U_PLAT_VAL : Z := 64.

Definition _plat_idx_to_val (idx : Z) (edge : Q) : Q :=
  if (idx <? Z.shiftl FIO_IO_U_PLAT_VAL 1)%Z then inject_Z idx
  else
    let error_bits := (Z.shiftr idx FIO_IO_U_PLAT_BITS - 1)%Z in
    let base := Z.shiftl 1 (error_bits + FIO_IO_U_PLAT_BITS) in
    let k := (idx mod FIO_IO_U_PLAT_VAL)%Z in
    inject_Z base + (inject_Z k + edge) * inject_Z (Z.shiftl 1 error_bits).

(** On Python integers.  The coarseness is not negative: [1 << coarseness]
    raises a [ValueError] for a negative count, which this function has
    no result for. *)
Definition plat_idx_to_val_coarse (idx coarseness : Z) (edge : Q) : Q :=
  let stride := Z.shiftl 1 coarseness in
  let idx := (idx * stride)%Z in
  let lower := _plat_idx_to_val idx 0 in
  let upper := _plat_idx_to_val (idx + stride) 1 in
  lower + (upper - lower) * edge.

(** [np.arange(n)] *)
Definition arange (n : nat) : list Z := map Z.of_nat (seq 0 n).

(** The elements of [np.arange] are [int64], and so is what the decoder
    computes from them with Python integers: sums, products and shifts
    wrap around at 64 bits, and a left shift by 64 or more is 0.  The
    stride is a Python integer that fits in 64 bits ([main] has a
    coarseness of at most 8). *)
Definition wrap64 (z : Z) : Z := ((z + 2 ^ 63) mod 2 ^ 64 - 2 ^ 63)%Z.

Definition int64_shl1 (n : Z) : Z :=
  if (n <? 64)%Z then wrap64 (Z.shiftl 1 n) else 0%Z.

(** Lines 135-159 and 161-173 again, as they run on an [int64] index. *)
Definition _plat_idx_to_val_int64 (idx : Z) (edge : Q) : Q :=
  if (idx <? Z.shiftl FIO_IO_U_PLAT_VAL 1)%Z then inject_Z idx
  else
    let error_bits := wrap64 (Z.shiftr idx FIO_IO_U_PLAT_BITS - 1) in
    let base := int64_shl1 (wrap64 (error_bits + FIO_IO_U_PLAT_BITS)) in
    let k := (idx mod FIO_IO_U_PLAT_VAL)%Z in
    inject_Z base + (inject_Z k + edge) * inject_Z (int64_shl1 error_bits).

Definition plat_idx_to_val_coarse_int64 (idx coarseness : Z) (edge : Q) : Q :=
  let stride := Z.shiftl 1 coarseness in
  let idx := wrap64 (idx * stride) in
  let lower := _plat_idx_to_val_int64 idx 0 in
  let upper := _plat_idx_to_val_int64 (wrap64 (idx + stride)) 1 in
  lower + (upper - lower) * edge.

(** The three tables of lines 291-293, for [H] histogram columns: [main]
    maps [plat_idx_to_val_coarse] over [np.arange(H)]. *)
Definition bin_vals (H : nat) (c : Z) : list Q :=
  map (fun x => plat_idx_to_val_coarse_int64 x c (1#2)) (arange H).

Definition lower_bin_vals (H : nat) (c : Z) : list Q :=
  map (fun x => plat_idx_to_val_coarse_int64 x c 0) (arange H).

Definition upper_bin_vals (H : nat) (c : Z) : list Q :=
  map (fun x => plat_idx_to_val_coarse_int64 x c 1) (arange H).

(** Integer views of the two edges of a fine bin, for the proofs. *)
Definition plat_group (idx : Z) : Z := (2 ^ (idx / 64 - 1))%Z.

Definition plat_lo (idx : Z) : Z :=
  if (idx <? 128)%Z then idx else (plat_group idx * (64 + idx mod 64))%Z.

Definition plat_hi (idx : Z) : Z :=
  if (idx <? 128)%Z then idx else (plat_group idx * (64 + idx mod 64 + 1))%Z.

(** [guess_max_from_bins] (lines 229-254); [None] is [exit(1)]. *)
Definition guess_max_from_bins (group_nr hist_cols : Z) : option Z :=
  let bins := if ((group_nr <? 19) || (26 <? group_nr))%Z
              then [(group_nr * Z.shiftl 1 6)%Z]
              else [1216; 1280; 1344; 1408; 1472; 1536; 1600; 1664]%Z in
  let coarses := map Z.of_nat (seq 0 9) in
  let arr := map (fun x => map (fun z => if (z mod 2 ^ x =? 0)%Z then (z / 2 ^ x)%Z
                                         else (-10)%Z) bins) coarses in
  match concat (map (np_where (fun v => (v =? hist_cols)%Z)) arr) with
  | [] => None
  | b :: _ => Some (nth b bins 0%Z)
  end.

(** ** The interval aggregator (lines 184-227) *)

(** Python's [min] and [max] of two values: the first one on a tie. *)
Definition py_min (a b : Q) : Q := if Qlt_le_dec b a then b else a.
Definition py_max (a b : Q) : Q := if Qlt_le_dec a b then b else a.

Definition update_extreme (val : option Q) (fncn : Q -> Q -> Q) (new_val : Q) : option Q :=
  match val with
  | None => Some new_val
  | Some v => Some (fncn v new_val)
  end.

(** The module-level tables [main] fills in before the first interval. *)
Record bin_tables : Type :=
  { HIST_COLUMNS : nat;
    t_bin_vals : list Q;
    t_lower_bin_vals : list Q;
    t_upper_bin_vals : list Q }.

Definition make_tables (H : nat) (c : Z) : bin_tables :=
  {| HIST_COLUMNS := H; t_bin_vals := bin_vals H c;
     t_lower_bin_vals := lower_bin_vals H c; t_upper_bin_vals := upper_bin_vals H c |}.

(** The locals the loop of [process_interval] carries from one sample to
    the next. *)
Record interval_acc : Type :=
  { iHist : list npfloat;
    ss_cnt : Z;
    mn_bin_val : option Q;
    mx_bin_val : option Q }.

Definition interval_init (tbl : bin_tables) : interval_acc :=
  {| iHist := repeat (Fin 0) (HIST_COLUMNS tbl); ss_cnt := 0;
     mn_bin_val := None; mx_bin_val := None |}.

(** Line 210. *)
Definition start_times_of (interval : Z) (tbl : bin_tables) (end_time : Z) : list Q :=
  map (fun bv => (inject_Z end_time - (1#2) * inject_Z interval) - bv / 1000)
      (t_bin_vals tbl).

(** Line 211: a bin qualifies when its start time is before [iEnd]. *)
Definition qualifies (iEnd : Q) (st : Q) : bool :=
  if Qlt_le_dec st iEnd then true else false.

Definition nonzero (h : Z) : bool := negb (h =? 0)%Z.

Fixpoint add_at (i : nat) (w : npfloat) (l : list npfloat) : list npfloat :=
  match l, i with
  | [], _ => []
  | x :: t, O => np_add x w :: t
  | x :: t, S i' => x :: add_at i' w t
  end.

(** [iHist[idx] += ws] for distinct positions [idx]. *)
Fixpoint scatter_add (l : list npfloat) (idx : list nat) (ws : list npfloat)
  : list npfloat :=
  match idx, ws with
  | i :: idx', w :: ws' => scatter_add (add_at i w l) idx' ws'
  | _, _ => l
  end.

(** The body of the loop of lines 206-225, for one sample. *)
Definition process_sample (interval : Z) (tbl : bin_tables) (iStart iEnd : Q)
           (a : interval_acc) (s : sample) : interval_acc :=
  let '(end_time, file, hist) := s in
  let start_times := start_times_of interval tbl end_time in
  let idx := np_where (qualifies iEnd) start_times in
  let s_ts := at_idx 0 start_times idx in
  let l_bvs := at_idx 0 (t_lower_bin_vals tbl) idx in
  let u_bvs := at_idx 0 (t_upper_bin_vals tbl) idx in
  let hs := at_idx 0%Z hist idx in
  let ws := zip_with np_scale hs
              (weights s_ts (repeat (inject_Z end_time) (length s_ts)) iStart iEnd) in
  let iHist' := scatter_add (iHist a) idx ws in
  let ss_cnt' := (ss_cnt a + zsum hs)%Z in
  let idx2 := np_where nonzero hs in
  match idx2 with
  | [] => {| iHist := iHist'; ss_cnt := ss_cnt';
             mn_bin_val := mn_bin_val a; mx_bin_val := mx_bin_val a |}
  | i0 :: _ =>
      let lo := Z.to_nat (Z.max 0 (Z.of_nat i0 - 1)) in
      let hi := Z.to_nat (Z.min (Z.of_nat (length hs) - 1)
                                (Z.of_nat (last idx2 i0) + 1)) in
      {| iHist := iHist'; ss_cnt := ss_cnt';
         mn_bin_val := update_extreme (mn_bin_val a) py_min (nth lo l_bvs 0);
         mx_bin_val := update_extreme (mx_bin_val a) py_max (nth hi u_bvs 0) |}
  end.

(** The arguments [process_interval] hands to [print_all_stats]. *)
Record stats_args : Type :=
  { r_end : Q; r_mn : option Q; r_ss_cnt : Z; r_vs : list Q; r_ws : list npfloat;
    r_mx : option Q }.

(** [None] when [ss_cnt] is not positive and nothing is printed. *)
Definition process_interval (interval : Z) (tbl : bin_tables) (samples : list sample)
           (iStart iEnd : Q) : option stats_args :=
  let a := fold_left (process_sample interval tbl iStart iEnd) samples (interval_init tbl) in
  if (0 <? ss_cnt a)%Z
  then Some {| r_end := iEnd; r_mn := mn_bin_val a; r_ss_cnt := ss_cnt a;
               r_vs := t_bin_vals tbl; r_ws := iHist a; r_mx := mx_bin_val a |}
  else None.

(** Counts of a sample in the bins that qualify for an interval ending at
    [iEnd], and all its counts. *)
Definition qualifying_count (interval : Z) (tbl : bin_tables) (iEnd : Q) (s : sample) : Z :=
  zsum (at_idx 0%Z (s_hist s)
               (np_where (qualifies iEnd) (start_times_of interval tbl (s_time s)))).

Definition hist_total (s : sample) : Z := zsum (s_hist s).

Definition zsum_map {A : Type} (f : A -> Z) (l : list A) : Z := zsum (map f l).

(** ** The driver loop (lines 256-334) *)

Record ctx_t : Type :=
  { ctx_interval : option Z; ctx_max_latency : Q; ctx_buff_size : nat; ctx_group_nr : Z }.

Record loop_state : Type :=
  { l_start : Q; l_end : Q; l_arr : list sample; l_more_data : bool; l_gen : gen_state }.

(** The inner loop of lines 307-313. *)
Fixpoint fill_buffer (fuel : nat) (sz : nat) (max_latency end_ : Q)
         (arr : list sample) (gen : gen_state) (more_data : bool)
  : option (list sample * gen_state * bool) :=
  match fuel with
  | O => None
  | S fuel' =>
      let go := match rev arr with
                | [] => true
                | lst :: _ =>
                    if Qlt_le_dec (inject_Z (s_time lst)) (max_latency * 1000 + end_)
                    then true else false
                end in
      if go then
        match gen_next sz gen with
        | Return => Some (arr, gen, false)
        | Raise => None
        | Yield new_arr gen' =>
            fill_buffer fuel' sz max_latency end_ (arr ++ [new_arr]) gen' more_data
        end
      else Some (arr, gen, more_data)
  end.

(** Python's [x % n] for a float [x]. *)
Definition py_fmod (x : Q) (n : Z) : Q := x - inject_Z (n * Qfloor (x / inject_Z n)).

(** Lines 320-323: the jump to the start of the input.  With an interval
    of zero the float modulo gives [nan] without raising; [start] and
    [end] are then not finite and the run goes on outside the rational
    model: [None]. *)
Definition first_interval (interval : Z) (max_latency start end_ : Q) (first_time : Z)
  : option (Q * Q) :=
  if Qeq_bool start 0 &&
     (if Qlt_le_dec end_ (inject_Z first_time - max_latency) then true else false)
  then
    if (interval =? 0)%Z then None
    else
      let start := inject_Z first_time - max_latency in
      let start := start - py_fmod start interval in
      Some (start, start + inject_Z interval)
  else Some (start, end_).

(** The loop of lines 304-334; the result lists what is printed. *)
Fixpoint main_loop (fuel : nat) (interval : Z) (ctx : ctx_t) (tbl : bin_tables)
         (st : loop_state) : option (list stats_args) :=
  match fuel with
  | O => None
  | S fuel' =>
      if l_more_data st || negb (Nat.eqb (length (l_arr st)) 0) then
        match fill_buffer fuel (ctx_buff_size ctx) (ctx_max_latency ctx) (l_end st)
                          (l_arr st) (l_gen st) (l_more_data st) with
        | None => None
        | Some (arr, gen, more_data) =>
            let step :=
              match arr with
              | [] => Some (l_start st, l_end st, [], arr)
              | first :: _ =>
                  match first_interval interval (ctx_max_latency ctx) (l_start st)
                                       (l_end st) (s_time first) with
                  | None => None
                  | Some (start, end_) =>
                      let out := match process_interval interval tbl arr start end_ with
                                 | Some r => [r]
                                 | None => []
                                 end in
                      Some (start, end_, out,
                            filter (fun s => if Qlt_le_dec end_ (inject_Z (s_time s))
                                             then true else false) arr)
                  end
              end in
            match step with
            | None => None
            | Some (start, end_, out, arr') =>
                let start := start + inject_Z interval in
                let end_ := start + inject_Z interval in
                match main_loop fuel' interval ctx tbl
                        {| l_start := start; l_end := end_; l_arr := arr';
                           l_more_data := more_data; l_gen := gen |} with
                | Some rest => Some (out ++ rest)
                | None => None
                end
            end
        end
      else Some []
  end.

(** Lines 286-287: the first line of the first file gives the number of
    columns, three of which are not histogram columns; an empty first
    line splits into one empty field and counts as one column. *)
Definition hist_columns_of (FILE : list (list raw_row)) : Z :=
  match FILE with
  | (r :: _) :: _ => Z.of_nat (length (raw_hists r))
  | _ => (1 - 3)%Z
  end.

(** [main], from the detection of the columns on.  [None] stands for every run without a result in this
    model: [exit(1)] at the column check, an exception (the generator
    raises at its first [next] when [setup_raises]), a start that is not
    finite, or fuel that runs out. *)
Definition main (fuel : nat) (ctx : ctx_t) (FILE : list (list raw_row))
  : option (list stats_args) :=
  let interval := match ctx_interval ctx with Some i => i | None => 1000%Z end in
  let hist_columns := hist_columns_of FILE in
  match guess_max_from_bins (ctx_group_nr ctx) hist_columns with
  | None => None
  | Some max_cols =>
      let coarseness := Z.log2 (max_cols / hist_columns) in
      let tbl := make_tables (Z.to_nat hist_columns) coarseness in
      if setup_raises FILE (ctx_buff_size ctx) then None
      else
        let gen := gen_init FILE (ctx_buff_size ctx) in
        main_loop fuel interval ctx tbl
          {| l_start := 0; l_end := inject_Z interval; l_arr := [];
             l_more_data := true; l_gen := gen |}
  end.

(** Options of a run: intervals of 1000 ms, 20 s of lookahead, chunks of
    100 rows, [--group_nr 20]; and a log of two rows of five columns. *)
Definition example_ctx : ctx_t :=
  {| ctx_interval := Some 1000%Z; ctx_max_latency := 20; ctx_buff_size := 100;
     ctx_group_nr := 20 |}.

Definition example_log : list (list raw_row) :=
  [[mk_row 500 [1; 0; 0; 0; 0]%Z; mk_row 1501 [0; 7; 0; 0; 0]%Z]].

(** ** Vocabulary of the further properties *)

(** The bin counts [guess_max_from_bins] chooses from (lines 233-236). *)
Definition candidate_bins (group_nr : Z) : list Z :=
  if ((group_nr <? 19) || (26 <? group_nr))%Z
  then [(group_nr * Z.shiftl 1 6)%Z]
  else [1216; 1280; 1344; 1408; 1472; 1536; 1600; 1664]%Z.

(** A yielded row without its file index, and the rows a file
    contributed to an output, in the order of the output. *)
Definition untag (s : sample) : row := (s_time s, s_hist s).

Definition from_file (i : nat) (out : list sample) : list row :=
  map untag (filter (fun s => Nat.eqb (s_file s) i) out).

(** Both extremes unset, or both set with the minimum at or below the
    maximum. *)
Definition extremes_ordered (mn mx : option Q) : Prop :=
  match mn, mx with
  | Some x, Some y => x <= y
  | None, None => True
  | _, _ => False
  end.

Definition pair_le (a b : Q * nat) : Prop := fst a <= fst b.

(** * Properties *)

(** ** The bin decoder *)

Section DecoderFacts.
Local Open Scope Z_scope.

Lemma plat_val_edge0 idx : _plat_idx_to_val idx 0 == inject_Z (plat_lo idx).
Proof.
  unfold _plat_idx_to_val, plat_lo, plat_group, FIO_IO_U_PLAT_VAL, FIO_IO_U_PLAT_BITS.
  change (Z.shiftl 64 1) with 128.
  destruct (idx <? 128) eqn:E; [reflexivity|].
  apply Z.ltb_ge in E.
  assert (Hq : 2 <= idx / 64) by (apply Z.div_le_lower_bound; lia).
  rewrite Z.shiftr_div_pow2 by lia. change (2 ^ 6) with 64.
  rewrite !Z.shiftl_1_l.
  replace (idx / 64 - 1 + 6) with ((idx / 64 - 1) + 6) by lia.
  rewrite Z.pow_add_r by lia. change (2 ^ 6) with 64.
  rewrite !inject_Z_mult, !inject_Z_plus. simpl (inject_Z 64). ring.
Qed.

Lemma plat_val_edge1 idx : _plat_idx_to_val idx 1 == inject_Z (plat_hi idx).
Proof.
  unfold _plat_idx_to_val, plat_hi, plat_group, FIO_IO_U_PLAT_VAL, FIO_IO_U_PLAT_BITS.
  change (Z.shiftl 64 1) with 128.
  destruct (idx <? 128) eqn:E; [reflexivity|].
  apply Z.ltb_ge in E.
  assert (Hq : 2 <= idx / 64) by (apply Z.div_le_lower_bound; lia).
  rewrite Z.shiftr_div_pow2 by lia. change (2 ^ 6) with 64.
  rewrite !Z.shiftl_1_l.
  replace (idx / 64 - 1 + 6) with ((idx / 64 - 1) + 6) by lia.
  rewrite Z.pow_add_r by lia. change (2 ^ 6) with 64.
  rewrite !inject_Z_mult, !inject_Z_plus. simpl (inject_Z 64). simpl (inject_Z 1). ring.
Qed.

Lemma plat_group_pos idx : 128 <= idx -> 2 <= plat_group idx.
Proof.
  intros H. unfold plat_group.
  assert (Hq : 2 <= idx / 64) by (apply Z.div_le_lower_bound; lia).
  change 2 with (2 ^ 1) at 1. apply Z.pow_le_mono_r; lia.
Qed.

Lemma plat_group_step a b : 128 <= a -> a / 64 < b / 64 -> 2 * plat_group a <= plat_group b.
Proof.
  intros Ha Hlt. unfold plat_group.
  assert (Hq : 2 <= a / 64) by (apply Z.div_le_lower_bound; lia).
  replace (2 * 2 ^ (a / 64 - 1)) with (2 ^ (Z.succ (a / 64 - 1))) by (rewrite Z.pow_succ_r; lia).
  apply Z.pow_le_mono_r; lia.
Qed.

Lemma plat_lo_le_hi a : plat_lo a <= plat_hi a.
Proof.
  unfold plat_lo, plat_hi. destruct (a <? 128) eqn:E; [lia|].
  apply Z.ltb_ge in E. pose proof (plat_group_pos a E). nia.
Qed.

Lemma plat_lo_mono a b : a <= b -> plat_lo a <= plat_lo b.
Proof.
  intros Hab. unfold plat_lo.
  destruct (a <? 128) eqn:Ea; destruct (b <? 128) eqn:Eb;
    try apply Z.ltb_lt in Ea; try apply Z.ltb_ge in Ea;
    try apply Z.ltb_lt in Eb; try apply Z.ltb_ge in Eb; try lia.
  - pose proof (plat_group_pos b Eb). pose proof (Z.mod_pos_bound b 64 ltac:(lia)). nia.
  - pose proof (plat_group_pos a Ea). pose proof (plat_group_pos b Eb).
    pose proof (Z.mod_pos_bound a 64 ltac:(lia)). pose proof (Z.mod_pos_bound b 64 ltac:(lia)).
    assert (Hd : a / 64 <= b / 64) by (apply Z.div_le_mono; lia).
    destruct (Z.eq_dec (a / 64) (b / 64)) as [Heq|Hne].
    + assert (a mod 64 <= b mod 64).
      { pose proof (Z.div_mod a 64 ltac:(lia)). pose proof (Z.div_mod b 64 ltac:(lia)). lia. }
      unfold plat_group in *. rewrite Heq in *. nia.
    + pose proof (plat_group_step a b Ea ltac:(lia)). nia.
Qed.

Lemma plat_hi_mono a b : a <= b -> plat_hi a <= plat_hi b.
Proof.
  intros Hab. unfold plat_hi.
  destruct (a <? 128) eqn:Ea; destruct (b <? 128) eqn:Eb;
    try apply Z.ltb_lt in Ea; try apply Z.ltb_ge in Ea;
    try apply Z.ltb_lt in Eb; try apply Z.ltb_ge in Eb; try lia.
  - pose proof (plat_group_pos b Eb). pose proof (Z.mod_pos_bound b 64 ltac:(lia)). nia.
  - pose proof (plat_group_pos a Ea). pose proof (plat_group_pos b Eb).
    pose proof (Z.mod_pos_bound a 64 ltac:(lia)). pose proof (Z.mod_pos_bound b 64 ltac:(lia)).
    assert (Hd : a / 64 <= b / 64) by (apply Z.div_le_mono; lia).
    destruct (Z.eq_dec (a / 64) (b / 64)) as [Heq|Hne].
    + assert (a mod 64 <= b mod 64).
      { pose proof (Z.div_mod a 64 ltac:(lia)). pose proof (Z.div_mod b 64 ltac:(lia)). lia. }
      unfold plat_group in *. rewrite Heq in *. nia.
    + pose proof (plat_group_step a b Ea ltac:(lia)). nia.
Qed.

Lemma stride_pos c : 0 <= c -> 1 <= Z.shiftl 1 c.
Proof. intros H. rewrite Z.shiftl_1_l. pose proof (Z.pow_pos_nonneg 2 c ltac:(lia) H). lia. Qed.

Lemma coarse_lower i c : plat_idx_to_val_coarse i c 0 == inject_Z (plat_lo (i * Z.shiftl 1 c)).
Proof. unfold plat_idx_to_val_coarse. cbv zeta. rewrite plat_val_edge0. ring. Qed.

Lemma coarse_upper i c :
  plat_idx_to_val_coarse i c 1 == inject_Z (plat_hi (i * Z.shiftl 1 c + Z.shiftl 1 c)).
Proof. unfold plat_idx_to_val_coarse. cbv zeta. rewrite plat_val_edge1. ring. Qed.

Lemma coarse_mid i c :
  plat_idx_to_val_coarse i c (1#2) ==
  (plat_idx_to_val_coarse i c 0 + plat_idx_to_val_coarse i c 1) * (1#2).
Proof. unfold plat_idx_to_val_coarse. cbv zeta. ring. Qed.

Lemma coarse_lower_le_upper i c : 0 <= c ->
  (plat_idx_to_val_coarse i c 0 <= plat_idx_to_val_coarse i c 1)%Q.
Proof.
  intros Hc. rewrite coarse_lower, coarse_upper. rewrite <- Zle_Qle.
  pose proof (stride_pos c Hc).
  etransitivity; [apply plat_lo_mono | apply plat_lo_le_hi]. lia.
Qed.

Lemma coarse_lower_mono i j c : 0 <= c -> i <= j ->
  (plat_idx_to_val_coarse i c 0 <= plat_idx_to_val_coarse j c 0)%Q.
Proof.
  intros Hc Hij. rewrite !coarse_lower. rewrite <- Zle_Qle.
  pose proof (stride_pos c Hc). apply plat_lo_mono. nia.
Qed.

Lemma coarse_upper_mono i j c : 0 <= c -> i <= j ->
  (plat_idx_to_val_coarse i c 1 <= plat_idx_to_val_coarse j c 1)%Q.
Proof.
  intros Hc Hij. rewrite !coarse_upper. rewrite <- Zle_Qle.
  pose proof (stride_pos c Hc). apply plat_hi_mono. nia.
Qed.

Lemma coarse_mid_mono i j c : 0 <= c -> i <= j ->
  (plat_idx_to_val_coarse i c (1#2) <= plat_idx_to_val_coarse j c (1#2))%Q.
Proof.
  intros Hc Hij. rewrite (coarse_mid i), (coarse_mid j).
  pose proof (coarse_lower_mono i j c Hc Hij). pose proof (coarse_upper_mono i j c Hc Hij). lra.
Qed.

Lemma nth_arange_map (f : Z -> Q) (H i : nat) (d : Q) :
  (i < H)%nat -> nth i (map f (arange H)) d = f (Z.of_nat i).
Proof.
  intros Hi. unfold arange. rewrite map_map.
  rewrite (nth_indep _ d (f (Z.of_nat 0))) by (rewrite length_map, length_seq; exact Hi).
  rewrite (map_nth (fun x => f (Z.of_nat x))). rewrite seq_nth by exact Hi. reflexivity.
Qed.

Lemma wrap64_small z : - 2 ^ 63 <= z < 2 ^ 63 -> wrap64 z = z.
Proof. intros Hz. unfold wrap64. rewrite Z.mod_small; lia. Qed.

Lemma int64_shl1_small n : 0 <= n <= 62 -> int64_shl1 n = Z.shiftl 1 n.
Proof.
  intros Hn. unfold int64_shl1. destruct (n <? 64) eqn:E; [|apply Z.ltb_ge in E; lia].
  apply wrap64_small. rewrite Z.shiftl_1_l.
  assert (0 < 2 ^ n) by (apply Z.pow_pos_nonneg; lia).
  assert (2 ^ n <= 2 ^ 62) by (apply Z.pow_le_mono_r; lia). lia.
Qed.

(** Below fine index 3712, 58 groups of 64, nothing wraps. *)
Lemma plat_val_int64_exact idx edge :
  idx < 3712 -> _plat_idx_to_val_int64 idx edge = _plat_idx_to_val idx edge.
Proof.
  intros Hlt. unfold _plat_idx_to_val_int64, _plat_idx_to_val,
    FIO_IO_U_PLAT_VAL, FIO_IO_U_PLAT_BITS.
  change (Z.shiftl 64 1) with 128.
  destruct (idx <? 128) eqn:E; [reflexivity|]. apply Z.ltb_ge in E. cbv zeta.
  rewrite Z.shiftr_div_pow2 by lia. change (2 ^ 6) with 64.
  assert (Hq : 2 <= idx / 64) by (apply Z.div_le_lower_bound; lia).
  assert (Hq' : idx / 64 <= 57) by (apply Z.lt_succ_r, Z.div_lt_upper_bound; lia).
  rewrite (wrap64_small (idx / 64 - 1)) by lia.
  rewrite (wrap64_small (idx / 64 - 1 + 6)) by lia.
  rewrite !int64_shl1_small by lia. reflexivity.
Qed.

Lemma coarse_int64_exact i c edge :
  0 <= c -> 0 <= i -> (i + 1) * 2 ^ c < 3712 ->
  plat_idx_to_val_coarse_int64 i c edge = plat_idx_to_val_coarse i c edge.
Proof.
  intros Hc Hi Hb. unfold plat_idx_to_val_coarse_int64, plat_idx_to_val_coarse. cbv zeta.
  pose proof (stride_pos c Hc) as Hs. rewrite Z.shiftl_1_l in *.
  rewrite (wrap64_small (i * 2 ^ c)) by nia.
  rewrite (wrap64_small (i * 2 ^ c + 2 ^ c)) by nia.
  rewrite !plat_val_int64_exact by nia. reflexivity.
Qed.

Lemma tables_exact (H : nat) (c : Z) edge :
  0 <= c -> Z.of_nat H * 2 ^ c < 3712 ->
  map (fun x => plat_idx_to_val_coarse_int64 x c edge) (arange H) =
  map (fun x => plat_idx_to_val_coarse x c edge) (arange H).
Proof.
  intros Hc Hb. apply map_ext_in. intros x Hx. unfold arange in Hx.
  apply in_map_iff in Hx. destruct Hx as (j & <- & Hj). apply in_seq in Hj.
  assert (0 < 2 ^ c) by (apply Z.pow_pos_nonneg; lia).
  apply coarse_int64_exact; [exact Hc|lia|nia].
Qed.

(** C9, as the code has it. For a coarseness [c >= 0] and [H] histogram
    columns whose finest bin index [H * 2^c] is below 3712 (58 groups of
    64 bins), the three tables built by [main] satisfy lower[i] <= mid[i]
    <= upper[i] at every bin index [i < H], and each of the three tables
    is non-decreasing in the bin index. *)
Theorem bin_tables_ordered (H : nat) (c : Z) (Hc : 0 <= c)
        (Hb : Z.of_nat H * 2 ^ c < 3712) :
  (forall i, (i < H)%nat ->
     (nth i (lower_bin_vals H c) 0 <= nth i (bin_vals H c) 0)%Q /\
     (nth i (bin_vals H c) 0 <= nth i (upper_bin_vals H c) 0)%Q) /\
  (forall i j, (i <= j)%nat -> (j < H)%nat ->
     (nth i (lower_bin_vals H c) 0 <= nth j (lower_bin_vals H c) 0)%Q /\
     (nth i (bin_vals H c) 0 <= nth j (bin_vals H c) 0)%Q /\
     (nth i (upper_bin_vals H c) 0 <= nth j (upper_bin_vals H c) 0)%Q).
Proof.
  unfold lower_bin_vals, bin_vals, upper_bin_vals. rewrite !tables_exact by assumption.
  split.
  - intros i Hi.
    rewrite !nth_arange_map by exact Hi.
    rewrite coarse_mid. pose proof (coarse_lower_le_upper (Z.of_nat i) c Hc). split; lra.
  - intros i j Hij Hj.
    rewrite !nth_arange_map by lia.
    assert (Z.of_nat i <= Z.of_nat j) by lia.
    repeat split; [apply coarse_lower_mono | apply coarse_mid_mono | apply coarse_upper_mono]; assumption.
Qed.

Lemma bin_tables_ordered_witness :
  (nth 1 (lower_bin_vals 5 8) 0 <= nth 1 (bin_vals 5 8) 0)%Q /\
  (nth 1 (upper_bin_vals 5 8) 0 <= nth 3 (upper_bin_vals 5 8) 0)%Q.
Proof.
  destruct (bin_tables_ordered 5 8 ltac:(lia) ltac:(reflexivity)) as [Hb Hm]. split.
  - apply (Hb 1%nat). lia.
  - apply (Hm 1%nat 3%nat); lia.
Defined.

(** C9 fails as stated. With [--group_nr 60] a log of 15 columns is
    accepted, at coarseness 8. The upper bound of bin 14 needs
    [1 << 65], which is 0 on [int64]: it comes out as 2^59, below the
    lower bound 2^61 of the same bin. *)
Lemma bin_tables_wrap_with_60_groups :
  guess_max_from_bins 60 15 = Some 3840 /\ Z.log2 (3840 / 15) = 8 /\
  (nth 14 (lower_bin_vals 15 8) 0 == inject_Z (2 ^ 61))%Q /\
  (nth 14 (upper_bin_vals 15 8) 0 == inject_Z (2 ^ 59))%Q /\
  ~ (nth 14 (lower_bin_vals 15 8) 0 <= nth 14 (upper_bin_vals 15 8) 0)%Q.
Proof.
  split; [reflexivity|]. split; [reflexivity|].
  split; [vm_compute; reflexivity|]. split; [vm_compute; reflexivity|].
  vm_compute. intros H. apply H. reflexivity.
Qed.

(** C3. The upper bound computed for coarse bin 128 at coarseness 0 is
    132, whereas the lower bound of bin 129, its neighbour in the same
    group of 64 bins, is 130: the two are not equal, so consecutive bins
    of the logarithmic region overlap instead of being contiguous. *)
Theorem coarse_upper_not_next_lower :
  plat_idx_to_val_coarse 128 0 1 == 132 /\ plat_idx_to_val_coarse 129 0 0 == 130 /\
  ~ plat_idx_to_val_coarse 128 0 1 == plat_idx_to_val_coarse 129 0 0.
Proof. repeat split; vm_compute; congruence. Qed.


(** In the linear region, where [_plat_idx_to_val] ignores [edge], the
    boundaries are contiguous. *)
Lemma coarse_upper_linear i c : 0 <= c -> (i + 1) * Z.shiftl 1 c < 128 ->
  plat_idx_to_val_coarse i c 1 == plat_idx_to_val_coarse (i + 1) c 0.
Proof.
  intros Hc Hlt. rewrite coarse_upper, coarse_lower.
  replace (i * Z.shiftl 1 c + Z.shiftl 1 c) with ((i + 1) * Z.shiftl 1 c) by ring.
  unfold plat_hi, plat_lo. apply Z.ltb_lt in Hlt. rewrite Hlt. reflexivity.
Qed.


End DecoderFacts.

(** ** [weights] *)

Lemma weights_cons s e ss es start end_ :
  weights (s :: ss) (e :: es) start end_ =
  (let w := np_div (Qmin e end_ - Qmax s start) (e - s) in
   if np_isnan w then Fin 0 else w) :: weights ss es start end_.
Proof. reflexivity. Qed.

Lemma np_div_nonzero n d : ~ d == 0 -> np_div n d = Fin (n / d).
Proof.
  intros Hd. unfold np_div. destruct (Qeq_bool d 0) eqn:E; [|reflexivity].
  apply Qeq_bool_eq in E. contradiction.
Qed.

Lemma weight_positive_span s e start end_ : s < e ->
  (let w := np_div (Qmin e end_ - Qmax s start) (e - s) in
   if np_isnan w then Fin 0 else w) = Fin (overlap_fraction s e start end_).
Proof.
  intros Hlt. cbv zeta. rewrite np_div_nonzero by lra. reflexivity.
Qed.

Lemma overlap_fraction_le_1 s e start end_ : s < e -> overlap_fraction s e start end_ <= 1.
Proof.
  intros Hlt. unfold overlap_fraction.
  apply Qle_shift_div_r; [lra|].
  pose proof (Q.le_min_l e end_). pose proof (Q.le_max_l s start). lra.
Qed.

Lemma overlap_fraction_clamped s e start end_ : s < e ->
  Qmax s start <= Qmin e end_ ->
  overlap_fraction s e start end_ == Qmax 0 (Qmin e end_ - Qmax s start) / (e - s).
Proof.
  intros Hlt Hov. unfold overlap_fraction.
  rewrite (Q.max_r 0 (Qmin e end_ - Qmax s start)) by lra. reflexivity.
Qed.

Lemma overlap_fraction_sign s e start end_ : s < e ->
  (0 <= overlap_fraction s e start end_ <-> Qmax s start <= Qmin e end_).
Proof.
  intros Hlt. unfold overlap_fraction. split.
  - intros H0. destruct (Qlt_le_dec (Qmin e end_) (Qmax s start)) as [Hd|Hd]; [|exact Hd].
    exfalso. assert (Hneg : (Qmin e end_ - Qmax s start) / (e - s) < 0).
    { apply Qlt_shift_div_r; lra. } lra.
  - intros Hov. apply Qle_shift_div_l; lra.
Qed.

(** C2, as the code has it. For samples of positive length the weight is
    the quotient (min(binEnd, intervalEnd) - max(binStart, intervalStart)) /
    (binEnd - binStart), without a clamp at zero. It agrees with the
    clamped formula when the span meets the interval, and it is
    non-negative exactly then. *)
Theorem weights_unclamped_fraction start_ts end_ts start end_ :
  Forall2 Qlt start_ts end_ts ->
  Forall2 (fun se w =>
             w = Fin (overlap_fraction (fst se) (snd se) start end_) /\
             (Qmax (fst se) start <= Qmin (snd se) end_ ->
              overlap_fraction (fst se) (snd se) start end_ ==
              Qmax 0 (Qmin (snd se) end_ - Qmax (fst se) start) / (snd se - fst se)) /\
             (0 <= overlap_fraction (fst se) (snd se) start end_ <->
              Qmax (fst se) start <= Qmin (snd se) end_))
          (combine start_ts end_ts) (weights start_ts end_ts start end_).
Proof.
  induction 1 as [|s e ss es Hlt Hrest IH]; [constructor|].
  rewrite weights_cons. simpl combine. constructor; [|exact IH].
  simpl fst; simpl snd. split; [apply weight_positive_span; exact Hlt|]. split.
  - apply overlap_fraction_clamped; exact Hlt.
  - apply overlap_fraction_sign; exact Hlt.
Qed.

Lemma weights_unclamped_fraction_witness :
  Forall2 (fun se w =>
             w = Fin (overlap_fraction (fst se) (snd se) 5 10) /\
             (Qmax (fst se) 5 <= Qmin (snd se) 10 ->
              overlap_fraction (fst se) (snd se) 5 10 ==
              Qmax 0 (Qmin (snd se) 10 - Qmax (fst se) 5) / (snd se - fst se)) /\
             (0 <= overlap_fraction (fst se) (snd se) 5 10 <->
              Qmax (fst se) 5 <= Qmin (snd se) 10))
          (combine [4; 0] [8; 1]) (weights [4; 0] [8; 1] 5 10).
Proof.
  apply (weights_unclamped_fraction [4; 0] [8; 1] 5 10).
  repeat constructor.
Defined.

(** C2 fails as stated: the span [0, 1] is disjoint from the interval
    [5, 10], and its weight is -4, not the 0 of the clamped formula. *)
Lemma weights_disjoint_span_negative :
  exists q, weights [0] [1] 5 10 = [Fin q] /\ q < 0 /\
            ~ q == Qmax 0 (Qmin 1 10 - Qmax 0 5) / (1 - 0).
Proof.
  eexists. split; [vm_compute; reflexivity|]. split; vm_compute; congruence.
Qed.

(** C10. When every sample has a positive length, [weights] returns one
    finite weight per sample and none of them exceeds 1. *)
Theorem weights_at_most_one start_ts end_ts start end_ :
  Forall2 Qlt start_ts end_ts ->
  length (weights start_ts end_ts start end_) = length start_ts /\
  Forall (fun w => exists q, w = Fin q /\ q <= 1) (weights start_ts end_ts start end_).
Proof.
  induction 1 as [|s e ss es Hlt Hrest [IHl IHf]]; [split; [reflexivity|constructor]|].
  rewrite weights_cons, weight_positive_span by exact Hlt. split.
  - simpl. now rewrite IHl.
  - constructor; [|exact IHf]. eexists. split; [reflexivity|].
    apply overlap_fraction_le_1; exact Hlt.
Qed.

Lemma weights_at_most_one_witness :
  length (weights [0; 3] [2; 7] 1 5) = 2%nat /\
  Forall (fun w => exists q, w = Fin q /\ q <= 1) (weights [0; 3] [2; 7] 1 5).
Proof.
  apply (weights_at_most_one [0; 3] [2; 7] 1 5).
  repeat constructor.
Defined.

(** C4. A zero-length sample that lies outside the interval [5, 10],
    before it or after it, gets the weight -inf: the quotient is then
    x / 0 with x < 0, which is not a [nan], so line 61 leaves it alone.
    Only a zero-length sample inside the interval gets the weight 0. *)
Theorem weights_zero_span_outside_interval :
  weights [0] [0] 5 10 = [NInf] /\ weights [12] [12] 5 10 = [NInf] /\
  weights [7] [7] 5 10 = [Fin 0].
Proof. repeat split. Qed.

(** The zero-length samples the code does reset are those inside the
    interval. *)
Lemma weights_zero_span_inside t start end_ :
  start <= t -> t <= end_ -> weights [t] [t] start end_ = [Fin 0].
Proof.
  intros H1 H2. unfold weights. simpl. unfold np_div.
  assert (Hd : Qeq_bool (t - t) 0 = true) by (apply Qeq_eq_bool; ring).
  assert (Hn : Qeq_bool (Qmin t end_ - Qmax t start) 0 = true).
  { apply Qeq_eq_bool. rewrite (Q.min_l t end_ H2), (Q.max_l t start H1). ring. }
  rewrite Hd, Hn. reflexivity.
Qed.

Lemma weights_zero_span_before t start end_ :
  t < start -> start <= end_ -> weights [t] [t] start end_ = [NInf].
Proof.
  intros H1 H2. unfold weights. simpl. unfold np_div.
  assert (Hd : Qeq_bool (t - t) 0 = true) by (apply Qeq_eq_bool; ring).
  assert (Hv : Qmin t end_ - Qmax t start < 0).
  { pose proof (Q.le_min_l t end_). pose proof (Q.le_max_r t start). lra. }
  assert (Hn : Qeq_bool (Qmin t end_ - Qmax t start) 0 = false).
  { destruct (Qeq_bool (Qmin t end_ - Qmax t start) 0) eqn:E; [apply Qeq_bool_eq in E; lra|reflexivity]. }
  assert (Hl : Qle_bool 0 (Qmin t end_ - Qmax t start) = false).
  { destruct (Qle_bool 0 (Qmin t end_ - Qmax t start)) eqn:E; [apply Qle_bool_imp_le in E; lra|reflexivity]. }
  rewrite Hd, Hn, Hl. reflexivity.
Qed.

(** ** [weighted_percentile] *)

Lemma argsort_insert_length p l : length (argsort_insert p l) = S (length l).
Proof. induction l as [|h t IH]; simpl; [reflexivity|]. destruct (Qlt_bool _ _); simpl; congruence. Qed.

Lemma argsort_insert_Forall (P : nat -> Prop) p l :
  P (snd p) -> Forall P (map snd l) -> Forall P (map snd (argsort_insert p l)).
Proof.
  intros Hp. induction l as [|h t IH]; simpl; intros Hl.
  - constructor; [exact Hp|constructor].
  - inversion Hl; subst. destruct (Qlt_bool _ _); simpl; constructor; auto.
Qed.

Lemma sorted_pairs_length (l : list (Q * nat)) :
  length (fold_right argsort_insert [] l) = length l.
Proof. induction l; simpl; [reflexivity|]. rewrite argsort_insert_length. congruence. Qed.

Lemma sorted_pairs_Forall (P : nat -> Prop) (l : list (Q * nat)) :
  Forall P (map snd l) -> Forall P (map snd (fold_right argsort_insert [] l)).
Proof.
  induction l as [|h t IH]; simpl; intros Hl; [constructor|].
  inversion Hl; subst. apply argsort_insert_Forall; auto.
Qed.

Lemma argsort_length vs : length (argsort vs) = length vs.
Proof.
  unfold argsort. rewrite length_map, sorted_pairs_length, length_combine, length_seq.
  apply Nat.min_id.
Qed.

Lemma argsort_bounded vs : Forall (fun i => (i < length vs)%nat) (argsort vs).
Proof.
  unfold argsort. apply sorted_pairs_Forall.
  assert (Hs : forall s (l : list Q), Forall (fun i => (i < s + length l)%nat)
                                     (map snd (combine l (seq s (length l))))).
  { intros s l. revert s. induction l as [|a t IH]; intros s; simpl; [constructor|].
    constructor; [lia|]. specialize (IH (S s)).
    eapply Forall_impl; [|exact IH]. simpl. intros; lia. }
  apply (Hs 0%nat).
Qed.

Lemma at_idx_repeat w n idx :
  Forall (fun i => (i < n)%nat) idx -> at_idx 0 (repeat w n) idx = repeat w (length idx).
Proof.
  induction 1 as [|i t Hi Ht IH]; [reflexivity|].
  unfold at_idx in *. cbn [map length repeat]. rewrite IH. f_equal.
  apply nth_repeat_lt. exact Hi.
Qed.

Lemma np_sum_from acc l : fold_left Qplus l acc == acc + fold_left Qplus l 0.
Proof.
  revert acc. induction l as [|x t IH]; intros acc; simpl; [ring|].
  rewrite (IH (acc + x)), (IH (0 + x)). ring.
Qed.

Lemma np_sum_repeat w n : np_sum (repeat w n) == inject_Z (Z.of_nat n) * w.
Proof.
  unfold np_sum. induction n as [|n IH]; [simpl; ring|].
  cbn [repeat fold_left]. rewrite np_sum_from, IH.
  rewrite Nat2Z.inj_succ. unfold Z.succ. rewrite inject_Z_plus. simpl (inject_Z 1). ring.
Qed.

Lemma cdf_uniform w total (N : Q) n s acc :
  0 < w -> 0 < N -> total == N * w -> acc == inject_Z (Z.of_nat s) * w ->
  Forall2 Qeq
    (zip_with (fun c wk => 100 * (c - wk / 2) / total) (cumsum_from acc (repeat w n)) (repeat w n))
    (map (fun k => 100 * (inject_Z (Z.of_nat k) + (1#2)) / N) (seq s n)).
Proof.
  intros Hw HN Ht. revert s acc. induction n as [|n IH]; intros s acc Hacc; simpl; [constructor|].
  constructor.
  - rewrite Ht, Hacc. field. split; lra.
  - apply IH. rewrite Hacc, Nat2Z.inj_succ. unfold Z.succ.
    rewrite inject_Z_plus. simpl (inject_Z 1). ring.
Qed.

Lemma interp_from_ext x x0 x0' y0 xp xp' fp :
  x0 == x0' -> Forall2 Qeq xp xp' ->
  interp_from x x0 y0 xp fp == interp_from x x0' y0 xp' fp.
Proof.
  intros H0 HF. revert x0 x0' y0 fp H0.
  induction HF as [|x1 x1' t t' H1 Ht IH]; intros x0 x0' y0 fp H0; simpl; [reflexivity|].
  destruct fp as [|y1 fp']; [reflexivity|].
  rewrite (Qleb_comp x1 x1' H1 x x (Qeq_refl x)).
  destruct (Qle_bool x1' x).
  - apply IH. exact H1.
  - rewrite H0, H1. reflexivity.
Qed.

Lemma nondecreasing_ext xp xp' :
  Forall2 Qeq xp xp' -> nondecreasing xp = nondecreasing xp'.
Proof.
  induction 1 as [|x x' t t' Hx Ht IH]; [reflexivity|].
  destruct Ht as [|y y' u u' Hy Hu]; [reflexivity|].
  change (Qle_bool x y && nondecreasing (y :: u) = Qle_bool x' y' && nondecreasing (y' :: u')).
  rewrite IH, (Qleb_comp x x' Hx y y' Hy). reflexivity.
Qed.

Lemma interp_ext xs xp xp' fp :
  Forall2 Qeq xp xp' ->
  match interp xs xp fp, interp xs xp' fp with
  | Some r, Some r' => Forall2 Qeq r r'
  | None, None => True
  | _, _ => False
  end.
Proof.
  intros HF. pose proof (Forall2_length HF) as Hl.
  pose proof (nondecreasing_ext xp xp' HF) as Hn.
  destruct HF as [|x0 x0' t t' H0 Ht]; [exact I|]. unfold interp.
  rewrite <- Hl, <- Hn.
  destruct (negb (length (x0 :: t) =? length fp)%nat); [exact I|].
  destruct (negb (nondecreasing (x0 :: t))); [exact I|].
  induction xs as [|x xs IH]; simpl; [constructor|].
  constructor; [|exact IH].
  destruct fp as [|y0 fp']; simpl; [reflexivity|].
  rewrite (Qleb_comp x0 x0' H0 x x (Qeq_refl x)).
  destruct (Qle_bool x0' x); [|reflexivity].
  apply interp_from_ext; assumption.
Qed.

Lemma interp_sorted xs xp fp :
  xp <> [] -> length xp = length fp -> nondecreasing xp = true ->
  interp xs xp fp =
  Some (map (fun x => match interp1 x xp fp with Some y => y | None => 0 end) xs).
Proof.
  intros Hne Hl Hn. unfold interp. destruct xp as [|x0 t]; [congruence|].
  rewrite Hl, Nat.eqb_refl, Hn. reflexivity.
Qed.

Example argsort_example : argsort [3; 1; 2; 1] = [1; 3; 2; 0]%nat.
Proof. reflexivity. Qed.

Example hazen_percentile_example :
  map Qred (map (hazen_percentile [10; 20; 30; 40]) [0; 25; 50; 90; 100]) = [10; 15; 25; 40; 40].
Proof. reflexivity. Qed.

Example weighted_percentile_example :
  option_map (map Qred) (weighted_percentile [0; 50; 75; 100] [30; 10; 20] [1; 1; 2]) =
  Some [10; 20; 80 # 3; 30].
Proof. reflexivity. Qed.

(** ** The merge of the input logs *)

Section MergerFacts.
Local Open Scope Z_scope.

Lemma py_min_by_spec key l : forall best,
  exists pre post, best :: l = pre ++ py_min_by key best l :: post /\
    (forall x, In x pre -> key (py_min_by key best l) < key x) /\
    (forall x, In x post -> key (py_min_by key best l) <= key x).
Proof.
  induction l as [|x t IH]; intros best; simpl.
  - exists [], []. repeat split; simpl; intros; contradiction.
  - destruct (key x <? key best) eqn:E.
    + apply Z.ltb_lt in E. destruct (IH x) as (pre & post & Heq & Hpre & Hpost).
      assert (Hrx : key (py_min_by key x t) <= key x).
      { destruct pre as [|p pre']; simpl in Heq; injection Heq as Hh Ht.
        - rewrite <- Hh. lia.
        - specialize (Hpre p (or_introl eq_refl)). rewrite <- Hh in Hpre. lia. }
      exists (best :: pre), post. split; [simpl; f_equal; exact Heq|]. split; [|exact Hpost].
      intros y [<-|Hy]; [lia|auto].
    + apply Z.ltb_ge in E. destruct (IH best) as (pre & post & Heq & Hpre & Hpost).
      destruct pre as [|p pre']; simpl in Heq; injection Heq as Hb Ht.
      * exists [], (x :: post). split; [simpl; f_equal; [exact Hb | f_equal; exact Ht]|]. split.
        -- intros y [].
        -- intros y [<-|Hy]; [rewrite <- Hb; lia|]. apply Hpost. exact Hy.
      * exists (best :: x :: pre'), post. split; [simpl; do 2 f_equal; exact Ht|].
        split; [|exact Hpost].
        pose proof (Hpre p (or_introl eq_refl)) as Hp. rewrite <- Hb in Hp.
        intros y [<-|[<-|Hy]]; [lia|lia|]. apply Hpre. right. exact Hy.
Qed.

Lemma seq_filter_sorted (f : nat -> bool) n a :
  StronglySorted lt (filter f (seq a n)).
Proof.
  revert a. induction n as [|n IH]; intros a; simpl; [constructor|].
  destruct (f a); [|apply IH].
  constructor; [apply IH|].
  apply Forall_forall. intros x Hx. apply filter_In in Hx. destruct Hx as [Hx _].
  apply in_seq in Hx. lia.
Qed.

Lemma sorted_before_in_pre (pre post : list nat) r j :
  StronglySorted lt (pre ++ r :: post) -> In j (pre ++ r :: post) -> (j < r)%nat -> In j pre.
Proof.
  induction pre as [|p pre IH]; simpl; intros Hs Hin Hlt.
  - apply StronglySorted_inv in Hs. destruct Hs as [_ Hall].
    destruct Hin as [->|Hin]; [lia|].
    rewrite Forall_forall in Hall. specialize (Hall j Hin). lia.
  - apply StronglySorted_inv in Hs. destruct Hs as [Hs _].
    destruct Hin as [->|Hin]; [now left|]. right. apply IH; assumption.
Qed.

Lemma not_none_head st fp : gen_inv st -> not_none st fp = true ->
  exists rdr r tl, nth_error st fp = Some {| f_rdr := rdr; f_arr := Some (r :: tl) |}.
Proof.
  intros Hinv Hnn. unfold not_none in Hnn.
  destruct (nth_error st fp) as [[rdr [a|]]|] eqn:E; try discriminate.
  apply nth_error_In in E. unfold gen_inv in Hinv. rewrite Forall_forall in Hinv.
  specialize (Hinv _ E). unfold file_ok in Hinv. simpl in Hinv.
  destruct a as [|r tl]; [contradiction|]. eauto.
Qed.

Lemma get_min_spec st : gen_inv st ->
  match get_min (seq 0 (length st)) st with
  | MinValueError => Forall (fun f => f_arr f = None) st
  | MinIndexError => False
  | MinAt i =>
      exists rdr r tl,
        nth_error st i = Some {| f_rdr := rdr; f_arr := Some (r :: tl) |} /\
        forall j f r' tl', nth_error st j = Some f -> f_arr f = Some (r' :: tl') ->
                           fst r <= fst r' /\ ((j < i)%nat -> fst r < fst r')
  end.
Proof.
  intros Hinv. unfold get_min.
  pose proof (seq_filter_sorted (not_none st) (length st) 0) as Hsorted.
  assert (Halive : forall x, In x (filter (not_none st) (seq 0 (length st))) ->
                             not_none st x = true).
  { intros x Hx. apply filter_In in Hx. tauto. }
  assert (Hmem : forall j f a, nth_error st j = Some f -> f_arr f = Some a ->
                               In j (filter (not_none st) (seq 0 (length st)))).
  { intros j f a Hj Ha. apply filter_In. split.
    - apply in_seq. assert (nth_error st j <> None) by congruence.
      apply nth_error_Some in H. lia.
    - unfold not_none. rewrite Hj. destruct f as [rdr arr]. simpl in Ha. subst arr. reflexivity. }
  destruct (filter (not_none st) (seq 0 (length st))) as [|fp rest] eqn:Ef.
  - apply Forall_forall. intros f Hf. apply In_nth_error in Hf. destruct Hf as [j Hj].
    destruct (f_arr f) as [a|] eqn:Ea; [|reflexivity].
    exfalso. exact (Hmem j f a Hj Ea).
  - assert (Hall : forallb (fun x => match head_time st x with Some _ => true | None => false end)
                     (fp :: rest) = true).
    { apply forallb_forall. intros x Hx. apply Halive in Hx.
      destruct (not_none_head st x Hinv Hx) as (rdr & r & tl & Hn).
      unfold head_time. rewrite Hn. reflexivity. }
    rewrite Hall.
    destruct (py_min_by_spec (key_of st) rest fp) as (pre & post & Heq & Hpre & Hpost).
    set (i := py_min_by (key_of st) fp rest) in *.
    assert (Hi : In i (fp :: rest)) by (rewrite Heq; apply in_elt).
    destruct (not_none_head st i Hinv (Halive i Hi)) as (rdr & r & tl & Hn).
    exists rdr, r, tl. split; [exact Hn|].
    assert (Hki : key_of st i = fst r) by (unfold key_of, head_time; rewrite Hn; reflexivity).
    intros j f r' tl' Hj Ha.
    assert (Hkj : key_of st j = fst r').
    { unfold key_of, head_time. rewrite Hj. destruct f as [rdr' arr]. simpl in Ha. subst arr.
      reflexivity. }
    pose proof (Hmem j f _ Hj Ha) as Hjin. rewrite Heq in Hjin, Hsorted.
    rewrite <- Hki, <- Hkj. split.
    + apply in_app_or in Hjin. destruct Hjin as [Hp|[<-|Hp]].
      * specialize (Hpre j Hp). lia.
      * lia.
      * exact (Hpost j Hp).
    + intros Hlt. apply Hpre. eapply sorted_before_in_pre; eassumption.
Qed.

Lemma nth_error_upd_same {A} (l : list A) i x :
  (i < length l)%nat -> nth_error (upd i x l) i = Some x.
Proof.
  revert i. induction l as [|h t IH]; intros [|i] Hi; simpl in *; try lia; [reflexivity|].
  apply IH. lia.
Qed.

Lemma nth_error_upd_other {A} (l : list A) i j x :
  j <> i -> nth_error (upd i x l) j = nth_error l j.
Proof.
  revert i j. induction l as [|h t IH]; intros [|i] [|j] Hne; simpl; try reflexivity; try congruence.
  apply IH. congruence.
Qed.

Lemma map_upd {A B} (f : A -> B) (l : list A) i x :
  map f (upd i x l) = upd i (f x) (map f l).
Proof.
  revert i. induction l as [|h t IH]; intros [|i]; simpl; try reflexivity. now rewrite IH.
Qed.

Lemma Forall_upd {A} (P : A -> Prop) (l : list A) i x :
  P x -> Forall P l -> Forall P (upd i x l).
Proof.
  intros Hx. revert i. induction l as [|h t IH]; intros [|i] Hl; simpl; try constructor;
    inversion Hl; subst; auto.
Qed.

Lemma count_rows_upd (rem : list (list row)) i r tl :
  nth_error rem i = Some (r :: tl) -> count_rows rem = S (count_rows (upd i tl rem)).
Proof.
  revert i. induction rem as [|l t IH]; intros [|i] Hn; simpl in *; try discriminate.
  - injection Hn as ->. reflexivity.
  - rewrite (IH i Hn). lia.
Qed.

Lemma tag_from_upd (rem : list (list row)) : forall i k r tl,
  nth_error rem i = Some (r :: tl) ->
  Permutation (tag (k + i) r :: tag_from k (upd i tl rem)) (tag_from k rem).
Proof.
  induction rem as [|l t IH]; intros [|i] k r tl Hn; simpl in *; try discriminate.
  - injection Hn as ->. simpl. rewrite Nat.add_0_r. reflexivity.
  - specialize (IH i (S k) r tl Hn).
    replace (k + S i)%nat with (S k + i)%nat by lia.
    rewrite <- IH. apply Permutation_middle.
Qed.

Lemma In_tag_from (rem : list (list row)) : forall k s,
  In s (tag_from k rem) ->
  exists j l r, nth_error rem j = Some l /\ In r l /\ s = tag (k + j) r.
Proof.
  induction rem as [|l t IH]; intros k s Hin; simpl in Hin; [contradiction|].
  apply in_app_or in Hin. destruct Hin as [Hin|Hin].
  - apply in_map_iff in Hin. destruct Hin as (r & <- & Hr).
    exists 0%nat, l, r. rewrite Nat.add_0_r. auto.
  - destruct (IH _ _ Hin) as (j & l' & r & Hn & Hr & ->).
    exists (S j), l', r. replace (k + S j)%nat with (S k + j)%nat by lia. auto.
Qed.

Lemma read_chunk_with_spec nrows rdr sz : nrows <> Some 0%nat ->
  file_ok {| f_rdr := snd (read_chunk_with nrows rdr sz);
             f_arr := fst (read_chunk_with nrows rdr sz) |} /\
  rest_of {| f_rdr := snd (read_chunk_with nrows rdr sz);
             f_arr := fst (read_chunk_with nrows rdr sz) |} =
  match rdr with Some r => map strip_row (pending r) | None => [] end.
Proof.
  intros Hn. unfold read_chunk_with, TextFileReader_read, file_ok, rest_of.
  destruct rdr as [[cs pend]|]; simpl; [|auto].
  destruct pend as [|p ps]; simpl; [auto|].
  destruct nrows as [[|n]|]; simpl; [congruence| |].
  - split; [exact I|]. f_equal. rewrite <- map_app, firstn_skipn. reflexivity.
  - split; [exact I|]. now rewrite app_nil_r.
Qed.

Lemma setup_raises_false fps sz : sz <> 0%nat -> setup_raises fps sz = false.
Proof.
  intros Hsz. unfold setup_raises, read_csv.
  destruct (Nat.eqb_spec sz 0) as [E|_]; [contradiction|].
  induction fps as [|f t IH]; simpl; [reflexivity|]. rewrite IH. now destruct f.
Qed.

Lemma gen_init_inv nrows fps sz : nrows <> Some 0%nat -> sz <> 0%nat ->
  gen_inv (gen_init_with nrows fps sz) /\
  remaining (gen_init_with nrows fps sz) = map (map strip_row) fps.
Proof.
  intros Hn Hsz. unfold gen_inv, remaining, gen_init_with.
  induction fps as [|f t [IH1 IH2]]; simpl; [split; [constructor|reflexivity]|].
  pose proof (read_chunk_with_spec nrows (rdr_of (read_csv f sz)) sz Hn) as [Hok Hrest].
  destruct (read_chunk_with nrows (rdr_of (read_csv f sz)) sz) as [a rdr'] eqn:E.
  simpl in Hok, Hrest.
  split; [constructor; assumption|]. rewrite IH2, Hrest. f_equal.
  unfold read_csv. destruct (Nat.eqb_spec sz 0) as [E0|_]; [contradiction|].
  destruct f; reflexivity.
Qed.

Lemma remaining_head st j f : gen_inv st -> nth_error st j = Some f ->
  forall r' tl', rest_of f = r' :: tl' -> exists tl'', f_arr f = Some (r' :: tl'').
Proof.
  intros Hinv Hj r' tl' Hr. apply nth_error_In in Hj.
  unfold gen_inv in Hinv. rewrite Forall_forall in Hinv. specialize (Hinv _ Hj).
  unfold file_ok in Hinv. unfold rest_of in Hr.
  destruct (f_arr f) as [[|a0 a]|]; [contradiction| |].
  - simpl in Hr. injection Hr as -> _. eauto.
  - destruct (f_rdr f) as [rd|]; [rewrite Hinv in Hr|]; discriminate.
Qed.

Lemma gen_next_spec nrows sz st : nrows <> Some 0%nat -> gen_inv st ->
  match gen_next_with nrows sz st with
  | Return => Forall (fun l => l = []) (remaining st)
  | Raise => False
  | Yield s st' =>
      gen_inv st' /\
      exists r tl, s = tag (s_file s) r /\
        nth_error (remaining st) (s_file s) = Some (r :: tl) /\
        remaining st' = upd (s_file s) tl (remaining st) /\
        forall j r' tl', nth_error (remaining st) j = Some (r' :: tl') ->
                         fst r <= fst r' /\ ((j < s_file s)%nat -> fst r < fst r')
  end.
Proof.
  intros Hn Hinv. unfold gen_next_with.
  pose proof (get_min_spec st Hinv) as Hmin.
  destruct (get_min (seq 0 (length st)) st) as [i| |]; [| |contradiction].
  - destruct Hmin as (rdr & r & tl & Hi & Hleast). rewrite Hi.
    assert (Hst : Forall file_ok st) by exact Hinv.
    assert (Hfi : file_ok {| f_rdr := rdr; f_arr := Some (r :: tl) |}).
    { rewrite Forall_forall in Hst. apply Hst. eapply nth_error_In; eassumption. }
    assert (Hleast' : forall j r' tl', nth_error (remaining st) j = Some (r' :: tl') ->
                         fst r <= fst r' /\ ((j < i)%nat -> fst r < fst r')).
    { intros j r' tl' Hj. unfold remaining in Hj. rewrite nth_error_map in Hj.
      destruct (nth_error st j) as [f|] eqn:Ej; [|discriminate]. simpl in Hj.
      injection Hj as Hj.
      destruct (remaining_head st j f Hinv Ej _ _ Hj) as [tl'' Ha].
      exact (Hleast j f r' tl'' Ej Ha). }
    assert (Hrem : nth_error (remaining st) i =
                   Some (r :: tl ++ match rdr with Some rd => map strip_row (pending rd)
                                               | None => [] end)).
    { unfold remaining. rewrite nth_error_map, Hi. reflexivity. }
    destruct tl as [|r2 tl2].
    + pose proof (read_chunk_with_spec nrows rdr sz Hn) as [Hok Hrest].
      destruct (read_chunk_with nrows rdr sz) as [a rdr'] eqn:E. simpl in Hok, Hrest.
      split; [apply Forall_upd; assumption|].
      exists r, (match rdr with Some rd => map strip_row (pending rd) | None => [] end).
      unfold s_file; simpl. split; [destruct r; reflexivity|].
      split; [exact Hrem|]. split; [|exact Hleast'].
      unfold remaining. rewrite map_upd, Hrest. reflexivity.
    + split; [apply Forall_upd; [exact I|assumption]|].
      exists r, ((r2 :: tl2) ++ match rdr with Some rd => map strip_row (pending rd)
                                         | None => [] end).
      unfold s_file; simpl. split; [destruct r; reflexivity|].
      split; [exact Hrem|]. split; [|exact Hleast'].
      unfold remaining. rewrite map_upd. reflexivity.
  - unfold remaining. apply Forall_forall. intros l Hl. apply in_map_iff in Hl.
    destruct Hl as (f & <- & Hf).
    assert (Hok : file_ok f).
    { unfold gen_inv in Hinv. rewrite Forall_forall in Hinv. auto. }
    rewrite Forall_forall in Hmin. specialize (Hmin f Hf).
    unfold file_ok in Hok. unfold rest_of. rewrite Hmin in *.
    destruct (f_rdr f); [rewrite Hok|]; reflexivity.
Qed.

Lemma count_rows_nil rem : Forall (fun l : list row => l = []) rem -> tag_from 0 rem = [].
Proof.
  generalize 0%nat. induction rem as [|l t IH]; intros k Hall; simpl; [reflexivity|].
  inversion Hall; subst. simpl. apply IH. assumption.
Qed.

Lemma row_sorted_head_le (r : row) tl x :
  StronglySorted row_le (r :: tl) -> In x (r :: tl) -> fst r <= fst x.
Proof.
  intros Hs [<-|Hin]; [lia|].
  apply StronglySorted_inv in Hs. destruct Hs as [_ Hall].
  rewrite Forall_forall in Hall. exact (Hall x Hin).
Qed.

Lemma merge_le_time a b : merge_le a b -> time_le a b.
Proof. unfold merge_le, time_le. lia. Qed.

Lemma StronglySorted_weaken {A} (R R' : A -> A -> Prop) l :
  (forall a b, R a b -> R' a b) -> StronglySorted R l -> StronglySorted R' l.
Proof.
  intros Himp. induction 1 as [|a l Hs IH Hall]; constructor; [exact IH|].
  eapply Forall_impl; [|exact Hall]. apply Himp.
Qed.

Lemma gen_run_spec nrows sz : nrows <> Some 0%nat ->
  forall fuel st,
    gen_inv st ->
    (count_rows (remaining st) < fuel)%nat ->
    Forall (StronglySorted row_le) (remaining st) ->
    exists out, gen_run_with nrows sz fuel st = Some out /\
                Permutation out (tag_from 0 (remaining st)) /\
                StronglySorted merge_le out.
Proof.
  intros Hn. induction fuel as [|fuel IH]; intros st Hinv Hfuel Hsorted; [lia|].
  simpl. pose proof (gen_next_spec nrows sz st Hn Hinv) as Hstep.
  destruct (gen_next_with nrows sz st) as [s st'| |]; [| |contradiction].
  - destruct Hstep as (Hinv' & r & tl & Hs & Hnth & Hrem & Hleast).
    assert (Hsorted_i : StronglySorted row_le (r :: tl)).
    { rewrite Forall_forall in Hsorted. apply Hsorted. eapply nth_error_In; eassumption. }
    assert (Hsorted' : Forall (StronglySorted row_le) (remaining st')).
    { rewrite Hrem. apply Forall_upd; [|assumption].
      apply StronglySorted_inv in Hsorted_i. tauto. }
    assert (Hcount : (count_rows (remaining st') < fuel)%nat).
    { pose proof (count_rows_upd _ _ _ _ Hnth). rewrite Hrem. lia. }
    destruct (IH st' Hinv' Hcount Hsorted') as (out & Hrun & Hperm & Hord).
    rewrite Hrun. exists (s :: out). split; [reflexivity|].
    assert (Hperm' : Permutation (s :: out) (tag_from 0 (remaining st))).
    { rewrite Hperm, Hrem, Hs. apply (tag_from_upd (remaining st) (s_file s) 0%nat r tl Hnth). }
    split; [exact Hperm'|]. constructor; [exact Hord|].
    apply Forall_forall. intros x Hx.
    apply (Permutation_in _ Hperm) in Hx. apply In_tag_from in Hx.
    destruct Hx as (j & l & r0 & Hj & Hr0 & ->). simpl in *.
    rewrite Hs. unfold merge_le, s_time, s_file, tag. simpl.
    rewrite Hrem in Hj.
    destruct (Nat.eq_dec j (s_file s)) as [->|Hne].
    + rewrite nth_error_upd_same in Hj
        by (apply nth_error_Some; rewrite Hnth; discriminate).
      injection Hj as <-.
      pose proof (row_sorted_head_le r tl r0 Hsorted_i (or_intror Hr0)). unfold s_file. lia.
    + rewrite nth_error_upd_other in Hj by exact Hne.
      destruct l as [|r' tl']; [contradiction|].
      destruct (Hleast j r' tl' Hj) as [Hle Hlt].
      assert (Hsj : StronglySorted row_le (r' :: tl')).
      { rewrite Forall_forall in Hsorted. apply Hsorted. eapply nth_error_In; eassumption. }
      pose proof (row_sorted_head_le r' tl' r0 Hsj Hr0).
      unfold s_file in *. lia.
  - exists []. split; [reflexivity|]. rewrite (count_rows_nil _ Hstep).
    split; constructor.
Qed.

Lemma count_rows_strip fps : count_rows (map (map strip_row) fps) = total_rows fps.
Proof.
  unfold count_rows, total_rows. induction fps as [|f t IH]; simpl; [reflexivity|].
  now rewrite length_map, IH.
Qed.

Lemma strip_sorted f :
  Sorted raw_le f -> StronglySorted row_le (map strip_row f).
Proof.
  intros Hs. apply Sorted_StronglySorted in Hs; [|intros a b c; unfold raw_le; lia].
  induction Hs as [|a l Hs IH Hall]; simpl; constructor; [exact IH|].
  apply Forall_forall. intros x Hx. apply in_map_iff in Hx. destruct Hx as (y & <- & Hy).
  rewrite Forall_forall in Hall. exact (Hall y Hy).
Qed.

(** The merge is correct whatever number of rows a read delivers, as
    long as it is not zero. *)
Lemma tag_from_strip fps : forall i,
  tag_from i (map (map strip_row) fps) = tagged_input_from i fps.
Proof.
  induction fps as [|f t IH]; intros i; simpl; [reflexivity|].
  rewrite IH, map_map. reflexivity.
Qed.

Lemma tagged_union_input fps : tagged_union fps = tagged_input fps.
Proof. apply tag_from_strip. Qed.

Lemma merge_with_spec nrows fps sz : nrows <> Some 0%nat -> sz <> 0%nat ->
  Forall (Sorted raw_le) fps ->
  exists out, gen_run_with nrows sz (S (total_rows fps)) (gen_init_with nrows fps sz) = Some out /\
              Permutation out (tagged_union fps) /\
              StronglySorted time_le out /\
              StronglySorted merge_le out.
Proof.
  intros Hn Hsz Hs. destruct (gen_init_inv nrows fps sz Hn Hsz) as [Hinv Hrem].
  destruct (gen_run_spec nrows sz Hn (S (total_rows fps)) _ Hinv) as (out & Hrun & Hperm & Hord).
  - rewrite Hrem, count_rows_strip. lia.
  - rewrite Hrem. apply Forall_forall. intros l Hl. apply in_map_iff in Hl.
    destruct Hl as (f & <- & Hf). apply strip_sorted.
    rewrite Forall_forall in Hs. auto.
  - exists out. rewrite Hrem in Hperm. repeat split; try assumption.
    eapply StronglySorted_weaken; [|exact Hord]. apply merge_le_time.
Qed.

(** C1. With a chunk size of at least 1, when every input file is in
    non-decreasing order of end time, [histogram_generator] runs to
    completion and what it yields is a permutation of the input records
    (end time and counts of every line), each tagged with the position of
    its file in the input list; it is non-decreasing in end time, and
    records with equal end times come out in ascending order of file
    position. *)
Theorem histogram_generator_merge fps sz :
  sz <> 0%nat ->
  Forall (Sorted raw_le) fps ->
  exists out, histogram_generator fps sz = Some out /\
              Permutation out (tagged_input fps) /\
              StronglySorted time_le out /\
              StronglySorted merge_le out.
Proof.
  intros Hsz Hs. unfold histogram_generator, gen_init.
  rewrite (setup_raises_false fps sz Hsz), <- tagged_union_input.
  apply merge_with_spec; [discriminate|exact Hsz|exact Hs].
Qed.

(** With a chunk size of 0 the generator raises before it yields
    anything, as soon as there is a file. *)
Lemma histogram_generator_chunk_zero f fps :
  setup_raises (f :: fps) 0 = true /\ histogram_generator (f :: fps) 0 = None.
Proof. split; reflexivity. Qed.

Lemma histogram_generator_merge_witness :
  exists out,
    histogram_generator [[mk_row 1 [1]; mk_row 5 [2]]; []; [mk_row 5 [3]; mk_row 7 [4]]; [mk_row 0 [5]]] 1 = Some out /\
    Permutation out (tagged_input [[mk_row 1 [1]; mk_row 5 [2]]; []; [mk_row 5 [3]; mk_row 7 [4]]; [mk_row 0 [5]]]) /\
    StronglySorted time_le out /\ StronglySorted merge_le out.
Proof.
  apply (histogram_generator_merge [[mk_row 1 [1]; mk_row 5 [2]]; []; [mk_row 5 [3]; mk_row 7 [4]]; [mk_row 0 [5]]] 1).
  - discriminate.
  - repeat constructor; unfold raw_le; simpl; lia.
Defined.

Example histogram_generator_example :
  histogram_generator [[mk_row 1 [1]; mk_row 5 [2]]; []; [mk_row 5 [3]; mk_row 7 [4]]; [mk_row 0 [5]]] 1 =
  Some [(0, 3%nat, [5]); (1, 0%nat, [1]); (5, 0%nat, [2]); (5, 2%nat, [3]); (7, 2%nat, [4])].
Proof. reflexivity. Qed.

(** C8. With a chunk size of 1, the buffer of a file of three rows holds
    all three rows after the first [read_chunk]: the bound of [sz] rows
    per file does not hold. *)
Theorem read_chunk_buffers_whole_file :
  buffered (gen_init [[mk_row 1 [1]; mk_row 2 [2]; mk_row 3 [3]]] 1) = [3%nat] /\
  ~ buffers_within 1 (gen_init [[mk_row 1 [1]; mk_row 2 [2]; mk_row 3 [3]]] 1).
Proof.
  split; [reflexivity|]. unfold buffers_within. simpl. intros H. inversion H; subst. lia.
Qed.

(** Had line 89 asked the reader for [sz] rows, every buffer would hold
    at most [sz] rows at every step. *)
Lemma read_chunk_with_bounded n rdr sz :
  match fst (read_chunk_with (Some n) rdr sz) with
  | Some a => (length a <= n)%nat
  | None => True
  end.
Proof.
  unfold read_chunk_with, TextFileReader_read. destruct rdr as [[cs pend]|]; simpl; [|exact I].
  destruct pend as [|p ps]; simpl; [exact I|]. rewrite length_map.
  change (p :: ps) with ([p] ++ ps) at 1. apply firstn_le_length.
Qed.

Lemma chunked_init_within fps sz : buffers_within sz (gen_init_with (Some sz) fps sz).
Proof.
  unfold buffers_within, buffered, gen_init_with. rewrite map_map. apply Forall_forall.
  intros n Hn. apply in_map_iff in Hn. destruct Hn as (f & <- & _).
  pose proof (read_chunk_with_bounded sz (rdr_of (read_csv f sz)) sz) as Hb.
  destruct (read_chunk_with (Some sz) (rdr_of (read_csv f sz)) sz) as [a rdr']. simpl in *.
  destruct a; [exact Hb|lia].
Qed.

Lemma chunked_next_within sz st s st' :
  buffers_within sz st -> gen_next_with (Some sz) sz st = Yield s st' -> buffers_within sz st'.
Proof.
  unfold buffers_within, buffered, gen_next_with. intros Hb Hstep.
  destruct (get_min _ st) as [i| |]; try discriminate.
  destruct (nth_error st i) as [[rdr [[|r rest]|]]|] eqn:Ei; try discriminate.
  assert (Hi : (length (r :: rest) <= sz)%nat).
  { rewrite Forall_forall in Hb. apply Hb. apply in_map_iff.
    exists {| f_rdr := rdr; f_arr := Some (r :: rest) |}. split; [reflexivity|].
    eapply nth_error_In; eassumption. }
  destruct rest as [|r2 rest2].
  - pose proof (read_chunk_with_bounded sz rdr sz) as Hc.
    destruct (read_chunk_with (Some sz) rdr sz) as [a rdr'] eqn:E.
    injection Hstep as _ <-. rewrite map_upd. apply Forall_upd; [|exact Hb].
    simpl in *. destruct a; [exact Hc|lia].
  - injection Hstep as _ <-. rewrite map_upd. apply Forall_upd; [|exact Hb].
    simpl in *. lia.
Qed.

Lemma buffers_within_total sz st :
  buffers_within sz st -> (fold_right Nat.add 0 (buffered st) <= length st * sz)%nat.
Proof.
  unfold buffers_within. rewrite <- (length_map (fun f => match f_arr f with
                                                          | Some a => length a
                                                          | None => 0%nat end) st).
  fold (buffered st). induction 1 as [|n l Hn Hl IH]; simpl; lia.
Qed.

End MergerFacts.

(** ** The interval aggregator *)

Section WhereFacts.
Context {A : Type} (p : A -> bool) (d : A).

Lemma where_from_ge k l : Forall (fun i => (k <= i < k + length l)%nat) (where_from p k l).
Proof.
  revert k. induction l as [|x t IH]; intros k; simpl; [constructor|].
  specialize (IH (S k)).
  assert (Ht : Forall (fun i => (k <= i < k + S (length t))%nat) (where_from p (S k) t)).
  { eapply Forall_impl; [|exact IH]. simpl. intros; lia. }
  destruct (p x); [constructor; [lia|exact Ht]|exact Ht].
Qed.

Lemma where_from_nil k l :
  (forall j, (j < length l)%nat -> p (nth j l d) = false) -> where_from p k l = [].
Proof.
  revert k. induction l as [|x t IH]; intros k Hall; simpl; [reflexivity|].
  pose proof (Hall 0%nat ltac:(simpl; lia)) as H0. simpl in H0. rewrite H0.
  apply IH. intros j Hj.
  apply (Hall (S j)). simpl. lia.
Qed.

Lemma where_from_hd k l i0 rest :
  where_from p k l = i0 :: rest ->
  (k <= i0 < k + length l)%nat /\ p (nth (i0 - k) l d) = true /\
  forall j, (j < i0 - k)%nat -> p (nth j l d) = false.
Proof.
  revert k. induction l as [|x t IH]; intros k Hw; simpl in Hw; [discriminate|].
  destruct (p x) eqn:Ex.
  - injection Hw as <- _. rewrite Nat.sub_diag. simpl. repeat split; try lia; auto.
  - destruct (IH (S k) Hw) as (Hr & Hp & Hz).
    replace (i0 - k)%nat with (S (i0 - S k)) by lia. simpl.
    repeat split; try lia; [exact Hp|].
    intros [|j] Hj; [exact Ex|]. apply Hz. lia.
Qed.

Lemma where_from_last k l d0 :
  where_from p k l <> [] ->
  (k <= last (where_from p k l) d0 < k + length l)%nat /\
  p (nth (last (where_from p k l) d0 - k) l d) = true /\
  forall j, (last (where_from p k l) d0 - k < j < length l)%nat -> p (nth j l d) = false.
Proof.
  revert k. induction l as [|x t IH]; intros k Hne; simpl in *; [congruence|].
  destruct (where_from p (S k) t) as [|i1 rest] eqn:Et.
  - destruct (p x) eqn:Ex; [|congruence]. simpl. rewrite Nat.sub_diag.
    repeat split; try lia; auto.
    intros [|j] Hj; [lia|]. simpl.
    pose proof (where_from_ge (S k) t) as Hge. rewrite Et in Hge.
    clear Hge. revert j Hj.
    assert (Hall : forall j, (j < length t)%nat -> p (nth j t d) = false).
    { clear -Et. revert k Et. induction t as [|y t' IHt]; intros k Et j Hj; simpl in *; [lia|].
      destruct (p y) eqn:Ey; [discriminate|]. destruct j; [exact Ey|].
      apply (IHt (S k) Et). lia. }
    intros j Hj. apply Hall. lia.
  - assert (Hl : last (if p x then k :: i1 :: rest else i1 :: rest) d0 = last (i1 :: rest) d0)
      by (destruct (p x); reflexivity).
    rewrite Hl. destruct (IH (S k)) as (Hr & Hp & Hz); [rewrite Et; discriminate|].
    rewrite Et in *.
    replace (last (i1 :: rest) d0 - k)%nat with (S (last (i1 :: rest) d0 - S k)) by lia.
    simpl nth. repeat split; try lia; [exact Hp|].
    intros [|j] Hj; [lia|]. apply Hz. lia.
Qed.

Lemma where_from_suffix k l m :
  (forall i, (i < length l)%nat -> (p (nth i l d) = true <-> (m <= i)%nat)) ->
  where_from p k l = seq (k + m) (length l - m).
Proof.
  revert k m. induction l as [|x t IH]; intros k m Hq; simpl; [reflexivity|].
  destruct m as [|m'].
  - assert (Hx : p x = true) by (apply (Hq 0%nat); simpl; lia).
    rewrite Hx, Nat.add_0_r. f_equal.
    rewrite (IH (S k) 0%nat), Nat.add_0_r, Nat.sub_0_r; [reflexivity|].
    intros i Hi. specialize (Hq (S i)). simpl in Hq. split; [lia|].
    intros _. apply Hq; lia.
  - assert (Hx : p x = false).
    { destruct (p x) eqn:E; [|reflexivity]. apply (Hq 0%nat) in E; simpl; lia. }
    rewrite Hx. rewrite (IH (S k) m').
    + f_equal. lia.
    + intros i Hi. specialize (Hq (S i)). simpl in Hq. rewrite Hq by lia. lia.
Qed.

End WhereFacts.

Lemma at_idx_seq {A} (d : A) (l : list A) m :
  at_idx d l (seq m (length l - m)) = skipn m l.
Proof.
  unfold at_idx. revert m. induction l as [|x t IH]; intros m; [destruct m; reflexivity|].
  destruct m as [|m'].
  - simpl. f_equal. rewrite <- seq_shift, map_map. simpl.
    specialize (IH 0%nat). rewrite Nat.sub_0_r in IH. exact IH.
  - simpl length. replace (S (length t) - S m')%nat with (length t - m')%nat by lia.
    rewrite <- seq_shift, map_map. simpl. apply IH.
Qed.



Lemma qualifies_iff iEnd st : qualifies iEnd st = true <-> st < iEnd.
Proof.
  unfold qualifies. destruct (Qlt_le_dec st iEnd); split; intros; try discriminate; auto; lra.
Qed.






(** *** Sample counts *)

Lemma zsum_from l a : fold_left Z.add l a = (a + zsum l)%Z.
Proof.
  unfold zsum. revert a. induction l as [|x t IH]; intros a; simpl; [lia|].
  rewrite (IH (a + x)%Z), (IH x). lia.
Qed.

Lemma zsum_cons x t : zsum (x :: t) = (x + zsum t)%Z.
Proof. unfold zsum at 1. simpl. apply zsum_from. Qed.

Lemma zsum_nonneg l : Forall (fun h => (0 <= h)%Z) l -> (0 <= zsum l)%Z.
Proof. induction 1 as [|x t Hx Ht IH]; [reflexivity|]. rewrite zsum_cons. lia. Qed.

Lemma zsum_map_cons {A} (f : A -> Z) x t : zsum_map f (x :: t) = (f x + zsum_map f t)%Z.
Proof. unfold zsum_map. simpl map. apply zsum_cons. Qed.

Lemma masked_sum_le {A} (p : A -> bool) l : forall hist k,
  Forall (fun h => (0 <= h)%Z) hist ->
  (zsum (map (fun i => nth (i - k) hist 0%Z) (where_from p k l)) <= zsum hist)%Z.
Proof.
  induction l as [|x t IH]; intros hist k Hpos; simpl; [apply zsum_nonneg; exact Hpos|].
  assert (Hrest : (zsum (map (fun i => nth (i - k) hist 0%Z) (where_from p (S k) t))
                   <= zsum (tl hist))%Z).
  { rewrite (map_ext_in _ (fun i => nth (i - S k) (tl hist) 0%Z)).
    - apply IH. destruct hist; [constructor|inversion Hpos; assumption].
    - intros i Hi. pose proof (where_from_ge p (S k) t) as Hge.
      rewrite Forall_forall in Hge. specialize (Hge i Hi).
      replace (i - k)%nat with (S (i - S k)) by lia.
      destruct hist; simpl; [destruct (i - S k)%nat; reflexivity|reflexivity]. }
  destruct (p x).
  - simpl map. rewrite zsum_cons, Nat.sub_diag.
    destruct hist as [|h hs]; simpl in *; [lia|].
    rewrite zsum_cons. inversion Hpos; subst. lia.
  - destruct hist as [|h hs]; simpl in *; [exact Hrest|].
    rewrite zsum_cons. inversion Hpos; subst. lia.
Qed.

Lemma qualifying_le_total interval tbl iEnd s :
  Forall (fun h => (0 <= h)%Z) (s_hist s) ->
  (qualifying_count interval tbl iEnd s <= hist_total s)%Z.
Proof.
  intros Hpos. unfold qualifying_count, hist_total, at_idx, np_where.
  rewrite (map_ext _ (fun i => nth (i - 0) (s_hist s) 0%Z))
    by (intros i; rewrite Nat.sub_0_r; reflexivity).
  apply masked_sum_le. exact Hpos.
Qed.

Lemma qualifying_eq_total interval tbl iEnd s :
  length (s_hist s) = length (t_bin_vals tbl) ->
  Forall (fun st => st < iEnd) (start_times_of interval tbl (s_time s)) ->
  qualifying_count interval tbl iEnd s = hist_total s.
Proof.
  intros Hlen Hall. unfold qualifying_count, hist_total, np_where.
  rewrite (where_from_suffix (qualifies iEnd) 0 0%nat _ 0%nat).
  - unfold start_times_of. rewrite length_map, <- Hlen. simpl.
    rewrite (at_idx_seq 0%Z (s_hist s) 0%nat). reflexivity.
  - intros i Hi. split; [lia|]. intros _. apply qualifies_iff.
    rewrite Forall_forall in Hall. apply Hall. apply nth_In. exact Hi.
Qed.

Lemma process_sample_count interval tbl iStart iEnd a s :
  ss_cnt (process_sample interval tbl iStart iEnd a s) =
  (ss_cnt a + qualifying_count interval tbl iEnd s)%Z.
Proof.
  destruct s as [[end_time file] hist]. unfold process_sample, qualifying_count. cbv zeta.
  unfold s_hist, s_time. simpl fst; simpl snd.
  destruct (np_where nonzero _); reflexivity.
Qed.

Lemma fold_sample_count interval tbl iStart iEnd samples : forall a,
  ss_cnt (fold_left (process_sample interval tbl iStart iEnd) samples a) =
  (ss_cnt a + zsum_map (qualifying_count interval tbl iEnd) samples)%Z.
Proof.
  induction samples as [|s t IH]; intros a; simpl.
  - unfold zsum_map, zsum. simpl. lia.
  - rewrite IH, process_sample_count, zsum_map_cons. lia.
Qed.

(** C7, as the code has it. The sample count of an emitted result is the
    sum, over the rows buffered for that interval, of the counts in the
    bins that qualify. With counts that are not negative it is at most the
    sum of all counts of those rows, and equal to it when every bin of
    every buffered row qualifies. *)
Theorem process_interval_sample_count interval tbl samples iStart iEnd r :
  Forall (fun s => Forall (fun h => (0 <= h)%Z) (s_hist s)) samples ->
  process_interval interval tbl samples iStart iEnd = Some r ->
  r_ss_cnt r = zsum_map (qualifying_count interval tbl iEnd) samples /\
  (r_ss_cnt r <= zsum_map hist_total samples)%Z /\
  (Forall (fun s => length (s_hist s) = length (t_bin_vals tbl) /\
                    Forall (fun st => st < iEnd) (start_times_of interval tbl (s_time s)))
          samples ->
   r_ss_cnt r = zsum_map hist_total samples).
Proof.
  intros Hpos Hr. unfold process_interval in Hr. cbv zeta in Hr.
  destruct (0 <? ss_cnt _)%Z; [|discriminate]. injection Hr as <-. cbn [r_ss_cnt].
  rewrite fold_sample_count. cbn [ss_cnt interval_init]. rewrite Z.add_0_l.
  split; [reflexivity|]. split.
  - induction Hpos as [|s t Hs Ht IH]; [reflexivity|].
    rewrite !zsum_map_cons. pose proof (qualifying_le_total interval tbl iEnd s Hs). lia.
  - intros Hall. induction Hall as [|s t [Hlen Hq] Ht IH]; [reflexivity|].
    inversion Hpos; subst. rewrite !zsum_map_cons, IH by assumption.
    rewrite (qualifying_eq_total interval tbl iEnd s Hlen Hq). reflexivity.
Qed.

Lemma process_interval_sample_count_witness :
  exists r,
    process_interval 1000 (make_tables 5 8)
      [(500%Z, 0%nat, [1; 0; 0; 0; 0]%Z); (1501%Z, 0%nat, [0; 7; 0; 0; 0]%Z)] 0 1000 = Some r /\
    r_ss_cnt r =
      zsum_map (qualifying_count 1000 (make_tables 5 8) 1000)
        [(500%Z, 0%nat, [1; 0; 0; 0; 0]%Z); (1501%Z, 0%nat, [0; 7; 0; 0; 0]%Z)] /\
    (r_ss_cnt r <=
       zsum_map hist_total
         [(500%Z, 0%nat, [1; 0; 0; 0; 0]%Z); (1501%Z, 0%nat, [0; 7; 0; 0; 0]%Z)])%Z.
Proof.
  eexists. split; [vm_compute; reflexivity|].
  match goal with
  | |- r_ss_cnt ?r = _ /\ _ =>
      destruct (process_interval_sample_count 1000 (make_tables 5 8)
                  [(500%Z, 0%nat, [1; 0; 0; 0; 0]%Z); (1501%Z, 0%nat, [0; 7; 0; 0; 0]%Z)]
                  0 1000 r) as (H1 & H2 & _)
  end.
  - repeat constructor; simpl; lia.
  - vm_compute. reflexivity.
  - split; [exact H1|exact H2].
Defined.

(** C7 fails as stated. The log of two rows, ending at 500 and at 1501,
    yields two results with sample counts 8 and 7. Their sum, 15, exceeds
    the number of rows, and also the 8 observations the rows record: the
    row ending at 1501 is counted in both intervals. *)
Lemma sample_count_exceeds_rows :
  exists rs,
    main 10 example_ctx example_log = Some rs /\
    map r_ss_cnt rs = [8; 7]%Z /\
    (Z.of_nat (total_rows example_log) < zsum (map r_ss_cnt rs))%Z /\
    (zsum_map hist_total (tagged_union example_log) < zsum (map r_ss_cnt rs))%Z.
Proof.
  eexists. split; [vm_compute; reflexivity|].
  split; [reflexivity|]. split; vm_compute; reflexivity.
Qed.

(** * Further properties *)

(** ** The bin decoder, continued *)

Section DecoderMore.
Local Open Scope Z_scope.





Lemma plat_lo_strict a b : a < b -> plat_lo a < plat_lo b.
Proof.
  intros Hab. unfold plat_lo.
  destruct (a <? 128) eqn:Ea; destruct (b <? 128) eqn:Eb;
    try apply Z.ltb_lt in Ea; try apply Z.ltb_ge in Ea;
    try apply Z.ltb_lt in Eb; try apply Z.ltb_ge in Eb; try lia.
  - pose proof (plat_group_pos b Eb). pose proof (Z.mod_pos_bound b 64 ltac:(lia)). nia.
  - pose proof (plat_group_pos a Ea). pose proof (plat_group_pos b Eb).
    pose proof (Z.mod_pos_bound a 64 ltac:(lia)). pose proof (Z.mod_pos_bound b 64 ltac:(lia)).
    assert (Hd : a / 64 <= b / 64) by (apply Z.div_le_mono; lia).
    destruct (Z.eq_dec (a / 64) (b / 64)) as [Heq|Hne].
    + assert (a mod 64 < b mod 64).
      { pose proof (Z.div_mod a 64 ltac:(lia)). pose proof (Z.div_mod b 64 ltac:(lia)). lia. }
      unfold plat_group in *. rewrite Heq in *. nia.
    + pose proof (plat_group_step a b Ea ltac:(lia)). nia.
Qed.

Lemma coarse_lower_strict i j c : 0 <= c -> i < j ->
  (plat_idx_to_val_coarse i c 0 < plat_idx_to_val_coarse j c 0)%Q.
Proof.
  intros Hc Hij. rewrite !coarse_lower. rewrite <- Zlt_Qlt.
  pose proof (stride_pos c Hc). apply plat_lo_strict. nia.
Qed.

Lemma coarse_lower_lt_upper i c : 0 <= c ->
  (plat_idx_to_val_coarse i c 0 < plat_idx_to_val_coarse i c 1)%Q.
Proof.
  intros Hc. rewrite coarse_lower, coarse_upper. rewrite <- Zlt_Qlt.
  pose proof (stride_pos c Hc).
  eapply Z.lt_le_trans; [apply (plat_lo_strict _ (i * Z.shiftl 1 c + Z.shiftl 1 c)); lia|].
  apply plat_lo_le_hi.
Qed.

(** X4. With a coarseness [c >= 0] and a finest bin index [H * 2^c]
    below 3712, every bin of the tables has its midpoint strictly between
    its bounds, and lower bounds and midpoints are strictly increasing in
    the bin index. *)
Theorem bin_tables_strict (H : nat) (c : Z) (Hc : 0 <= c)
        (Hb : Z.of_nat H * 2 ^ c < 3712) :
  (forall i, (i < H)%nat ->
     (nth i (lower_bin_vals H c) 0 < nth i (bin_vals H c) 0)%Q /\
     (nth i (bin_vals H c) 0 < nth i (upper_bin_vals H c) 0)%Q) /\
  (forall i j, (i < j)%nat -> (j < H)%nat ->
     (nth i (lower_bin_vals H c) 0 < nth j (lower_bin_vals H c) 0)%Q /\
     (nth i (bin_vals H c) 0 < nth j (bin_vals H c) 0)%Q).
Proof.
  unfold lower_bin_vals, bin_vals, upper_bin_vals. rewrite !tables_exact by assumption.
  split.
  - intros i Hi.
    rewrite !nth_arange_map by exact Hi.
    rewrite coarse_mid. pose proof (coarse_lower_lt_upper (Z.of_nat i) c Hc). split; lra.
  - intros i j Hij Hj.
    rewrite !nth_arange_map by lia.
    pose proof (coarse_lower_strict (Z.of_nat i) (Z.of_nat j) c Hc ltac:(lia)).
    pose proof (coarse_upper_mono (Z.of_nat i) (Z.of_nat j) c Hc ltac:(lia)).
    split; [assumption|]. rewrite (coarse_mid (Z.of_nat i)), (coarse_mid (Z.of_nat j)). lra.
Qed.

Lemma bin_tables_strict_witness :
  (nth 2 (lower_bin_vals 5 8) 0 < nth 2 (bin_vals 5 8) 0)%Q /\
  (nth 1 (bin_vals 5 8) 0 < nth 4 (bin_vals 5 8) 0)%Q.
Proof.
  destruct (bin_tables_strict 5 8 ltac:(lia) ltac:(reflexivity)) as [Hb Hm]. split.
  - apply (Hb 2%nat). lia.
  - apply (Hm 1%nat 4%nat); lia.
Defined.

Lemma coarse_upper_linear_witness :
  plat_idx_to_val_coarse 30 2 1 == plat_idx_to_val_coarse (30 + 1) 2 0.
Proof. apply (coarse_upper_linear 30 2); [lia|reflexivity]. Defined.


Lemma lower_bin_vals_sorted (H : nat) (c : Z) :
  0 <= c -> Z.of_nat H * 2 ^ c < 3712 -> StronglySorted Qle (lower_bin_vals H c).
Proof.
  intros Hc Hb. unfold lower_bin_vals. rewrite tables_exact by assumption. clear Hb.
  unfold arange. rewrite map_map.
  generalize 0%nat. induction H as [|H IH]; intros s; simpl; constructor; [apply IH|].
  apply Forall_forall. intros y Hy. apply in_map_iff in Hy. destruct Hy as (j & <- & Hj).
  apply in_seq in Hj. apply coarse_lower_mono; [exact Hc|lia].
Qed.

Lemma lower_le_upper_tables (H : nat) (c : Z) :
  0 <= c -> Z.of_nat H * 2 ^ c < 3712 ->
  Forall2 Qle (lower_bin_vals H c) (upper_bin_vals H c).
Proof.
  intros Hc Hb. unfold lower_bin_vals, upper_bin_vals. rewrite !tables_exact by assumption.
  clear Hb.
  induction (arange H) as [|x t IH]; simpl; constructor; [|exact IH].
  apply coarse_lower_le_upper. exact Hc.
Qed.

End DecoderMore.

(** ** [guess_max_from_bins] *)

Section GuessFacts.
Local Open Scope Z_scope.

Lemma where_from_In {A} (p : A -> bool) (d : A) l : forall k i,
  In i (where_from p k l) <-> (k <= i < k + length l)%nat /\ p (nth (i - k) l d) = true.
Proof.
  induction l as [|x t IH]; intros k i; simpl.
  - split; [contradiction|lia].
  - assert (Hrec : In i (where_from p (S k) t) <->
                   (S k <= i < S k + length t)%nat /\ p (nth (i - S k) t d) = true) by apply IH.
    destruct (Nat.eq_dec i k) as [->|Hne].
    + rewrite Nat.sub_diag. destruct (p x) eqn:Ex.
      * split; [intros _; split; [lia|reflexivity]|intros _; now left].
      * rewrite Hrec. split; [lia|intros [_ H]; discriminate].
    + assert (Hin : In i (if p x then k :: where_from p (S k) t else where_from p (S k) t) <->
                    In i (where_from p (S k) t)).
      { destruct (p x); simpl; [|tauto]. split; [intros [H|H]; [congruence|exact H]|tauto]. }
      rewrite Hin, Hrec.
      destruct (Nat.le_gt_cases i k) as [Hle|Hgt]; [lia|].
      replace (i - k)%nat with (S (i - S k)) by lia. simpl. split; intros [H1 H2]; split; auto; lia.
Qed.

Lemma nth_map_in_range {A B} (f : A -> B) (l : list A) i d d' :
  (i < length l)%nat -> nth i (map f l) d = f (nth i l d').
Proof.
  revert i. induction l as [|a t IH]; intros [|i] Hi; simpl in *; try lia; [reflexivity|].
  apply IH. lia.
Qed.

Lemma concat_hd_in {A} (ls : list (list A)) b rest :
  concat ls = b :: rest -> exists l, In l ls /\ In b l.
Proof.
  intros H. assert (Hin : In b (concat ls)) by (rewrite H; now left).
  apply in_concat in Hin. destruct Hin as (l & Hl & Hb). eauto.
Qed.

Lemma guess_max_in_candidates group_nr hist_cols max_cols :
  guess_max_from_bins group_nr hist_cols = Some max_cols ->
  hist_cols <> -10 ->
  In max_cols (candidate_bins group_nr) /\
  exists x, 0 <= x <= 8 /\ max_cols = hist_cols * 2 ^ x.
Proof.
  unfold guess_max_from_bins. fold (candidate_bins group_nr). cbv zeta.
  set (bins := candidate_bins group_nr).
  destruct (concat _) as [|b rest] eqn:Ec; [discriminate|].
  intros Hz Hne. injection Hz as <-.
  apply concat_hd_in in Ec. destruct Ec as (l & Hl & Hb).
  apply in_map_iff in Hl. destruct Hl as (row & <- & Hrow).
  apply in_map_iff in Hrow. destruct Hrow as (x & <- & Hx).
  apply in_map_iff in Hx. destruct Hx as (n & <- & Hn). apply in_seq in Hn.
  unfold np_where in Hb. apply (where_from_In _ 0) in Hb. destruct Hb as [Hlen Hp].
  rewrite Nat.sub_0_r, length_map in *. simpl in Hlen.
  rewrite (nth_map_in_range _ bins b 0 0) in Hp by lia. apply Z.eqb_eq in Hp.
  split; [apply nth_In; lia|].
  exists (Z.of_nat n). split; [lia|].
  destruct (_ mod _ =? 0) eqn:Em; [|congruence]. apply Z.eqb_eq in Em.
  assert (Hpos : 0 < 2 ^ Z.of_nat n) by (apply Z.pow_pos_nonneg; lia).
  pose proof (Z.div_mod (nth b bins 0) (2 ^ Z.of_nat n) ltac:(lia)). nia.
Qed.

(** X7. What [guess_max_from_bins] returns is one of the candidate bin
    counts and equals the column count times 2^x for some x from 0 to 8
    (for a column count other than the marker -10). *)
Theorem guess_max_from_bins_sound group_nr hist_cols max_cols :
  guess_max_from_bins group_nr hist_cols = Some max_cols ->
  hist_cols <> -10 ->
  In max_cols (candidate_bins group_nr) /\
  exists x, 0 <= x <= 8 /\ max_cols = hist_cols * 2 ^ x.
Proof. exact (guess_max_in_candidates group_nr hist_cols max_cols). Qed.

Lemma guess_max_from_bins_sound_witness :
  In 1280 (candidate_bins 20) /\ exists x, 0 <= x <= 8 /\ 1280 = 5 * 2 ^ x.
Proof. apply (guess_max_from_bins_sound 20 5 1280); [reflexivity|lia]. Defined.

(** X9. For a positive column count, the coarseness [main] derives from
    the guess is between 0 and 8, and the column count times the stride
    [1 << coarseness] is the guessed bin count. *)
Theorem coarseness_recovers_stride group_nr hist_cols max_cols :
  guess_max_from_bins group_nr hist_cols = Some max_cols ->
  0 < hist_cols ->
  0 <= Z.log2 (max_cols / hist_cols) <= 8 /\
  hist_cols * Z.shiftl 1 (Z.log2 (max_cols / hist_cols)) = max_cols.
Proof.
  intros Hg Hpos.
  destruct (guess_max_in_candidates _ _ _ Hg ltac:(lia)) as (_ & x & Hx & ->).
  rewrite Z.mul_comm, Z.div_mul by lia. rewrite Z.log2_pow2 by lia.
  rewrite Z.shiftl_1_l. split; lia.
Qed.

Lemma coarseness_recovers_stride_witness :
  0 <= Z.log2 (1280 / 5) <= 8 /\ 5 * Z.shiftl 1 (Z.log2 (1280 / 5)) = 1280.
Proof. apply (coarseness_recovers_stride 20 5 1280); [reflexivity|lia]. Defined.

(** With [--group_nr] up to 57, every column count that [main] accepts
    gives tables whose finest bin index is below 3712, where the [int64]
    arithmetic of the tables is exact. *)
Lemma accepted_tables_in_range group_nr hist_cols max_cols :
  0 <= group_nr <= 57 -> 0 < hist_cols ->
  guess_max_from_bins group_nr hist_cols = Some max_cols ->
  0 <= Z.log2 (max_cols / hist_cols) /\
  hist_cols * 2 ^ Z.log2 (max_cols / hist_cols) < 3712.
Proof.
  intros Hg Hpos Hm.
  destruct (guess_max_in_candidates _ _ _ Hm ltac:(lia)) as (Hin & x & Hx & ->).
  assert (E : Z.log2 (hist_cols * 2 ^ x / hist_cols) = x).
  { rewrite Z.mul_comm, Z.div_mul by lia. apply Z.log2_pow2. lia. }
  rewrite E. split; [lia|].
  unfold candidate_bins in Hin. destruct (_ || _); simpl in Hin.
  - destruct Hin as [Hin|[]]. change (Z.shiftl 1 6) with 64 in Hin. lia.
  - repeat (destruct Hin as [Hin|Hin]; [lia|]). contradiction.
Qed.

(** X8. Whenever some candidate bin count, divided exactly by 2^x with x
    from 0 to 8, gives the column count, [guess_max_from_bins] returns a
    value and does not exit. *)
Theorem guess_max_from_bins_complete group_nr hist_cols z x :
  In z (candidate_bins group_nr) -> 0 <= x <= 8 -> z mod 2 ^ x = 0 -> z / 2 ^ x = hist_cols ->
  exists max_cols, guess_max_from_bins group_nr hist_cols = Some max_cols.
Proof.
  intros Hz Hx Hm Hd. unfold guess_max_from_bins. fold (candidate_bins group_nr). cbv zeta.
  set (bins := candidate_bins group_nr) in *.
  destruct (concat _) as [|b rest] eqn:Ec; [|eauto].
  exfalso.
  apply In_nth_error in Hz. destruct Hz as [k Hk].
  assert (Hklen : (k < length bins)%nat) by (apply nth_error_Some; congruence).
  set (f := fun z0 => if z0 mod 2 ^ x =? 0 then z0 / 2 ^ x else -10).
  assert (Hin : In k (np_where (fun v => v =? hist_cols) (map f bins))).
  { unfold np_where. apply (where_from_In _ 0). rewrite length_map, Nat.sub_0_r.
    split; [lia|].
    rewrite (nth_map_in_range f bins k 0 0) by lia.
    rewrite (nth_error_nth _ _ _ Hk). unfold f.
    rewrite Hm. simpl. apply Z.eqb_eq. exact Hd. }
  assert (Hcat : In k (concat (map (np_where (fun v => v =? hist_cols))
                    (map (fun x0 => map (fun z0 => if z0 mod 2 ^ x0 =? 0 then z0 / 2 ^ x0 else -10)
                                        bins) (map Z.of_nat (seq 0 9)))))).
  { apply in_concat. exists (np_where (fun v => v =? hist_cols) (map f bins)).
    split; [|exact Hin]. apply in_map. apply in_map_iff. exists x. split; [reflexivity|].
    apply in_map_iff. exists (Z.to_nat x). split; [lia|]. apply in_seq. lia. }
  rewrite Ec in Hcat. contradiction.
Qed.

Lemma guess_max_from_bins_complete_witness :
  exists max_cols, guess_max_from_bins 29 58 = Some max_cols.
Proof.
  apply (guess_max_from_bins_complete 29 58 1856 5).
  - simpl. left. reflexivity.
  - lia.
  - reflexivity.
  - reflexivity.
Defined.

End GuessFacts.

(** ** [weights], continued *)

(** X12. A sample of positive length that lies inside the interval has
    weight 1. *)
Theorem weights_contained_is_one start_ts end_ts start end_ :
  Forall2 (fun s e => s < e /\ start <= s /\ e <= end_) start_ts end_ts ->
  Forall (fun w => exists q, w = Fin q /\ q == 1) (weights start_ts end_ts start end_).
Proof.
  induction 1 as [|s e ss es (Hlt & Hs & He) Hrest IH]; [constructor|].
  rewrite weights_cons, weight_positive_span by exact Hlt. constructor; [|exact IH].
  eexists. split; [reflexivity|]. unfold overlap_fraction.
  rewrite (Q.min_l e end_ He), (Q.max_l s start Hs). field. lra.
Qed.

Lemma weights_contained_is_one_witness :
  Forall (fun w => exists q, w = Fin q /\ q == 1) (weights [2; 3] [4; 9] 1 10).
Proof.
  apply (weights_contained_is_one [2; 3] [4; 9] 1 10).
  repeat constructor; discriminate.
Defined.

(** X13. Cutting an interval [a, c] at a point [b] inside the span of a
    sample splits its weight: the weights for [a, b] and [b, c] add up to
    the weight for [a, c]. *)
Theorem weights_split_interval s e a b c :
  s < e -> s <= b -> b <= e ->
  exists w1 w2 w,
    weights [s] [e] a b = [Fin w1] /\ weights [s] [e] b c = [Fin w2] /\
    weights [s] [e] a c = [Fin w] /\ w1 + w2 == w.
Proof.
  intros Hlt Hsb Hbe.
  exists (overlap_fraction s e a b), (overlap_fraction s e b c), (overlap_fraction s e a c).
  rewrite !weights_cons, !weight_positive_span by exact Hlt.
  repeat split; try reflexivity.
  unfold overlap_fraction. rewrite (Q.min_r e b Hbe), (Q.max_r s b Hsb). field. lra.
Qed.

(** ** [weighted_average] and [weighted_percentile], continued *)

Lemma np_sum_cons x t : np_sum (x :: t) == x + np_sum t.
Proof. unfold np_sum. simpl. rewrite np_sum_from. ring. Qed.

Lemma weighted_sum_bounds lo hi vs : forall ws,
  length vs = length ws ->
  Forall (fun v => lo <= v /\ v <= hi) vs ->
  Forall (fun w => 0 <= w) ws ->
  lo * np_sum ws <= np_sum (zip_with Qmult vs ws) /\
  np_sum (zip_with Qmult vs ws) <= hi * np_sum ws.
Proof.
  induction vs as [|v vs IH]; intros [|w ws] Hlen Hv Hw; simpl in Hlen; try discriminate.
  - unfold np_sum. simpl. split; lra.
  - inversion Hv as [|? ? [Hlo Hhi] Hv']; subst. inversion Hw as [|? ? Hw0 Hw']; subst.
    destruct (IH ws ltac:(lia) Hv' Hw') as [IH1 IH2].
    simpl zip_with. rewrite !np_sum_cons.
    pose proof (Qmult_le_compat_r _ _ w Hlo Hw0).
    pose proof (Qmult_le_compat_r _ _ w Hhi Hw0).
    split; lra.
Qed.

Lemma weights_split_interval_witness :
  exists w1 w2 w,
    weights [2] [8] 0 5 = [Fin w1] /\ weights [2] [8] 5 10 = [Fin w2] /\
    weights [2] [8] 0 10 = [Fin w] /\ w1 + w2 == w.
Proof. apply (weights_split_interval 2 8 0 5 10); [reflexivity|discriminate|discriminate]. Defined.

(** X14. With weights that are not negative and have a positive sum,
    the weighted average lies between any lower and upper bound of the
    values. *)
Theorem weighted_average_bounds lo hi vs ws :
  length vs = length ws ->
  Forall (fun v => lo <= v /\ v <= hi) vs ->
  Forall (fun w => 0 <= w) ws ->
  0 < np_sum ws ->
  lo <= weighted_average vs ws /\ weighted_average vs ws <= hi.
Proof.
  intros Hlen Hv Hw Hpos.
  destruct (weighted_sum_bounds lo hi vs ws Hlen Hv Hw) as [H1 H2].
  unfold weighted_average. split.
  - apply Qle_shift_div_l; assumption.
  - apply Qle_shift_div_r; assumption.
Qed.

Lemma weighted_average_bounds_witness :
  1 <= weighted_average [1; 4; 2] [2; 1; 1] /\ weighted_average [1; 4; 2] [2; 1; 1] <= 4.
Proof.
  apply (weighted_average_bounds 1 4 [1; 4; 2] [2; 1; 1]).
  - reflexivity.
  - repeat constructor; discriminate.
  - repeat constructor; discriminate.
  - reflexivity.
Defined.

Lemma interp_from_range lo hi x xp : forall x0 y0 fp,
  x0 <= x -> lo <= y0 -> y0 <= hi ->
  Forall (fun y => lo <= y /\ y <= hi) fp ->
  lo <= interp_from x x0 y0 xp fp /\ interp_from x x0 y0 xp fp <= hi.
Proof.
  induction xp as [|x1 xp' IH]; intros x0 y0 fp Hx Hlo Hhi Hfp; simpl; [split; assumption|].
  destruct fp as [|y1 fp']; [split; assumption|].
  inversion Hfp as [|? ? [Hy1lo Hy1hi] Hfp']; subst.
  destruct (Qle_bool x1 x) eqn:E.
  - apply Qle_bool_imp_le in E. apply IH; assumption.
  - assert (Hlt : x < x1).
    { destruct (Qlt_le_dec x x1) as [H|H]; [exact H|].
      apply Qle_bool_iff in H. congruence. }
    assert (Hd : 0 < x1 - x0) by lra.
    set (t := (x - x0) / (x1 - x0)).
    assert (Ht0 : 0 <= t) by (apply Qle_shift_div_l; lra).
    assert (Ht1 : t <= 1) by (apply Qle_shift_div_r; lra).
    assert (Hval : (y1 - y0) / (x1 - x0) * (x - x0) + y0 == y0 + (y1 - y0) * t).
    { unfold t. field. lra. }
    rewrite Hval.
    destruct (Qlt_le_dec y0 y1) as [Hy|Hy].
    + assert (0 <= (y1 - y0) * t) by (apply Qmult_le_0_compat; lra).
      assert ((y1 - y0) * t <= (y1 - y0) * 1) by (apply Qmult_le_l; lra).
      split; lra.
    + assert (0 <= (y0 - y1) * t) by (apply Qmult_le_0_compat; lra).
      assert ((y0 - y1) * t <= (y0 - y1) * 1).
      { destruct (Qeq_dec y0 y1) as [He|Hn]; [rewrite He; lra|]. apply Qmult_le_l; lra. }
      split; lra.
Qed.

Lemma interp_range lo hi xs xp fp r :
  Forall (fun y => lo <= y /\ y <= hi) fp ->
  interp xs xp fp = Some r ->
  length r = length xs /\ Forall (fun y => lo <= y /\ y <= hi) r.
Proof.
  intros Hfp Hr. destruct xp as [|x0 xp']; [discriminate|].
  destruct (Nat.eq_dec (length (x0 :: xp')) (length fp)) as [Hlen|Hlen].
  2: { unfold interp in Hr. apply Nat.eqb_neq in Hlen. rewrite Hlen in Hr. discriminate. }
  destruct (nondecreasing (x0 :: xp')) eqn:Hn.
  2: { unfold interp in Hr. rewrite Hn in Hr. destruct (negb _); discriminate. }
  rewrite interp_sorted in Hr by (auto; discriminate). injection Hr as <-. rewrite length_map. split; [reflexivity|].
  apply Forall_forall. intros y Hy. apply in_map_iff in Hy. destruct Hy as (x & <- & _).
  simpl. destruct fp as [|y0 fp']; [simpl in Hlen; lia|].
  inversion Hfp as [|? ? [Hy0lo Hy0hi] Hfp']; subst.
  destruct (Qle_bool x0 x) eqn:E; [|split; assumption].
  apply Qle_bool_imp_le in E. apply interp_from_range; assumption.
Qed.

Lemma zip_with_length {A B C} (f : A -> B -> C) l : forall l',
  length (zip_with f l l') = Nat.min (length l) (length l').
Proof. induction l as [|a t IH]; intros [|b t']; simpl; auto. Qed.

Lemma cumsum_from_length acc l : length (cumsum_from acc l) = length l.
Proof. revert acc. induction l as [|x t IH]; intros acc; simpl; auto. Qed.

Lemma Qlt_bool_iff x y : Qlt_bool x y = true <-> x < y.
Proof.
  unfold Qlt_bool. rewrite negb_true_iff. split.
  - intros H. destruct (Qlt_le_dec x y) as [Hl|Hl]; [exact Hl|].
    apply Qle_bool_iff in Hl. congruence.
  - intros H. destruct (Qle_bool y x) eqn:E; [|reflexivity].
    apply Qle_bool_iff in E. lra.
Qed.

Lemma argsort_insert_perm p l : Permutation (argsort_insert p l) (p :: l).
Proof.
  induction l as [|h t IH]; simpl; [reflexivity|].
  destruct (Qlt_bool (fst h) (fst p)); [|reflexivity].
  rewrite IH. apply perm_swap.
Qed.

Lemma argsort_insert_sorted p l :
  StronglySorted pair_le l -> StronglySorted pair_le (argsort_insert p l).
Proof.
  induction 1 as [|h t Hs IH Hall]; simpl; [repeat constructor|].
  destruct (Qlt_bool (fst h) (fst p)) eqn:E.
  - apply Qlt_bool_iff in E. constructor; [exact IH|].
    apply Forall_forall. intros x Hx.
    apply (Permutation_in _ (argsort_insert_perm p t)) in Hx. destruct Hx as [<-|Hx].
    + unfold pair_le. lra.
    + rewrite Forall_forall in Hall. auto.
  - assert (Hle : fst p <= fst h).
    { destruct (Qlt_le_dec (fst h) (fst p)) as [Hl|Hl]; [|exact Hl].
      apply Qlt_bool_iff in Hl. congruence. }
    constructor; [constructor; assumption|].
    constructor; [exact Hle|].
    eapply Forall_impl; [|exact Hall]. unfold pair_le. intros a Ha. lra.
Qed.

Lemma sorted_pairs_spec (l : list (Q * nat)) :
  StronglySorted pair_le (fold_right argsort_insert [] l) /\
  Permutation (fold_right argsort_insert [] l) l.
Proof.
  induction l as [|p t [IHs IHp]]; simpl; [split; constructor|]. split.
  - apply argsort_insert_sorted. exact IHs.
  - rewrite argsort_insert_perm. constructor. exact IHp.
Qed.

Lemma combine_seq_nth (vs : list Q) : forall s p,
  In p (combine vs (seq s (length vs))) -> (s <= snd p)%nat /\ nth (snd p - s) vs 0 = fst p.
Proof.
  induction vs as [|v t IH]; intros s p Hin; simpl in Hin; [contradiction|].
  destruct Hin as [<-|Hin]; simpl.
  - rewrite Nat.sub_diag. split; [lia|reflexivity].
  - destruct (IH (S s) p Hin) as [Hle Hn]. split; [lia|].
    replace (snd p - s)%nat with (S (snd p - S s)) by lia. exact Hn.
Qed.

Lemma combine_seq_fst (vs : list Q) s : map fst (combine vs (seq s (length vs))) = vs.
Proof.
  revert s. induction vs as [|v t IH]; intros s; simpl; [reflexivity|]. now rewrite IH.
Qed.

(** The values in the order [argsort] gives are the values, sorted. *)
Lemma argsort_sorts vs :
  StronglySorted Qle (at_idx 0 vs (argsort vs)) /\ Permutation (at_idx 0 vs (argsort vs)) vs.
Proof.
  unfold argsort, at_idx.
  destruct (sorted_pairs_spec (combine vs (seq 0 (length vs)))) as [Hs Hp].
  set (P := fold_right argsort_insert [] (combine vs (seq 0 (length vs)))) in *.
  assert (Heq : map (fun i => nth i vs 0) (map snd P) = map fst P).
  { rewrite map_map. apply map_ext_in. intros p Hin.
    apply (Permutation_in _ Hp) in Hin. apply combine_seq_nth in Hin.
    destruct Hin as [_ Hn]. rewrite Nat.sub_0_r in Hn. exact Hn. }
  rewrite Heq. split.
  - clear -Hs. induction Hs as [|a t Hs IH Hall]; simpl; constructor; [exact IH|].
    apply Forall_forall. intros x Hx. apply in_map_iff in Hx. destruct Hx as (b & <- & Hb).
    rewrite Forall_forall in Hall. exact (Hall b Hb).
  - rewrite (Permutation_map fst Hp). rewrite combine_seq_fst. reflexivity.
Qed.

Lemma np_sum_pos l : l <> [] -> Forall (fun w => 0 < w) l -> 0 < np_sum l.
Proof.
  intros Hne Hall. destruct Hall as [|w t Hw Ht]; [congruence|].
  rewrite np_sum_cons. clear Hne.
  assert (0 <= np_sum t).
  { induction Ht as [|a t' Ha Ht' IH]; [unfold np_sum; simpl; lra|]. rewrite np_sum_cons. lra. }
  lra.
Qed.

Lemma cumsum_from_bound acc l :
  Forall (fun w => 0 < w) l ->
  Forall2 (fun c w => acc < c - w / 2 /\ c - w / 2 < acc + np_sum l) (cumsum_from acc l) l.
Proof.
  intros Hall. revert acc. induction Hall as [|w t Hw Ht IH]; intros acc; simpl; constructor.
  - rewrite np_sum_cons.
    assert (0 <= np_sum t).
    { clear -Ht. induction Ht as [|a t' Ha Ht' IH]; [unfold np_sum; simpl; lra|].
      rewrite np_sum_cons. lra. }
    assert (Hh : w / 2 + w / 2 == w) by field.
    set (h := w / 2) in *. clearbody h. split; lra.
  - eapply Forall2_impl; [|apply (IH (acc + w))].
    intros c w' [H1 H2]. rewrite np_sum_cons. split; lra.
Qed.

Lemma cdf_of_bounded (T : Q) cs ws :
  0 < T ->
  Forall2 (fun c w => 0 < c - w / 2 /\ c - w / 2 < 0 + T) cs ws ->
  Forall (fun p => 0 < p /\ p < 100) (zip_with (fun c w => 100 * (c - w / 2) / T) cs ws).
Proof.
  intros HT. induction 1 as [|c w cs' l [H1 H2] _ IH]; simpl; constructor; [|exact IH].
  split.
  - apply Qlt_shift_div_l; lra.
  - apply Qlt_shift_div_r; lra.
Qed.

Lemma cdf_in_range ws :
  Forall (fun w => 0 < w) ws -> ws <> [] ->
  Forall (fun p => 0 < p /\ p < 100)
         (zip_with (fun c w => 100 * (c - w / 2) / np_sum ws) (cumsum ws) ws).
Proof.
  intros Hall Hne. apply cdf_of_bounded; [apply np_sum_pos; assumption|].
  apply (cumsum_from_bound 0 ws Hall).
Qed.

Lemma last_cons_default {A} (a : A) l d d' : last (a :: l) d = last (a :: l) d'.
Proof.
  revert a. induction l as [|b t IH]; intros a; [reflexivity|].
  change (last (a :: b :: t) d) with (last (b :: t) d).
  change (last (a :: b :: t) d') with (last (b :: t) d'). apply IH.
Qed.

Lemma last_In_default {A} (l : list A) d : In (last l d) (d :: l).
Proof.
  induction l as [|a t IH]; [now left|].
  destruct t as [|b t']; [right; now left|].
  change (last (a :: b :: t') d) with (last (b :: t') d).
  destruct IH as [H|H]; [now left|]. right. right. exact H.
Qed.

Lemma last_cons_self {A} (l : list A) d : last (d :: l) d = last l d.
Proof. destruct l; reflexivity. Qed.

Lemma interp_from_all_passed x : forall xp fp x0 y0,
  Forall (fun p => p <= x) xp -> length xp = length fp ->
  interp_from x x0 y0 xp fp = last fp y0.
Proof.
  induction xp as [|x1 xp' IH]; intros [|y1 fp'] x0 y0 Hall Hlen; simpl in Hlen; try discriminate.
  - reflexivity.
  - inversion Hall as [|? ? H1 Hall']; subst. simpl interp_from.
    assert (E : Qle_bool x1 x = true) by (apply Qle_bool_iff; exact H1).
    rewrite E. rewrite (IH fp' x1 y1 Hall' ltac:(lia)).
    destruct fp' as [|q t]; [reflexivity|].
    change (last (y1 :: q :: t) y0) with (last (q :: t) y0). apply last_cons_default.
Qed.

Lemma sorted_last_max (l : list Q) d :
  StronglySorted Qle l -> Forall (fun v => v <= last l d) l.
Proof.
  induction 1 as [|a t Hs IH Hall]; [constructor|].
  destruct t as [|b t']; [constructor; [simpl; lra|constructor]|].
  change (last (a :: b :: t') d) with (last (b :: t') d).
  constructor; [|exact IH].
  inversion IH as [|? ? Hb _]; subst. inversion Hall as [|? ? Hab _]; subst. lra.
Qed.

Lemma nondecreasing_cons x t :
  Forall (fun y => x <= y) t -> nondecreasing t = true -> nondecreasing (x :: t) = true.
Proof.
  intros Hall Ht. destruct t as [|y u]; [reflexivity|].
  change (Qle_bool x y && nondecreasing (y :: u) = true).
  inversion Hall as [|? ? Hxy _]; subst.
  apply andb_true_intro. split; [apply Qle_bool_iff; exact Hxy|exact Ht].
Qed.

Lemma np_sum_nonneg l : Forall (fun w => 0 <= w) l -> 0 <= np_sum l.
Proof.
  induction 1 as [|a t Ha Ht IH]; [unfold np_sum; simpl; lra|]. rewrite np_sum_cons. lra.
Qed.

(** Weights that are not negative give a cdf in ascending order. *)
Lemma cdf_nondecreasing (T : Q) l : 0 < T -> Forall (fun w => 0 <= w) l -> forall acc,
  let cdf := zip_with (fun c w => 100 * (c - w / 2) / T) (cumsum_from acc l) l in
  nondecreasing cdf = true /\ Forall (fun p => 100 * acc / T <= p) cdf.
Proof.
  intros HT Hall. induction Hall as [|w t Hw Ht IH]; intros acc; cbv zeta; simpl.
  - split; [reflexivity|constructor].
  - destruct (IH (acc + w)) as [IHn IHb]. cbv zeta in IHn, IHb.
    set (rest := zip_with (fun c w0 => 100 * (c - w0 / 2) / T) (cumsum_from (acc + w) t) t) in *.
    assert (Hh : w / 2 + w / 2 == w) by field.
    set (h := w / 2) in *. clearbody h.
    assert (Hstep : 100 * (acc + w - h) / T <= 100 * (acc + w) / T).
    { apply Qmult_le_compat_r; [lra|]. apply Qlt_le_weak, Qinv_lt_0_compat, HT. }
    assert (Hhead : 100 * acc / T <= 100 * (acc + w - h) / T).
    { apply Qmult_le_compat_r; [lra|]. apply Qlt_le_weak, Qinv_lt_0_compat, HT. }
    split.
    + apply nondecreasing_cons; [|exact IHn].
      eapply Forall_impl; [|exact IHb]. simpl. intros p Hp. lra.
    + constructor; [exact Hhead|].
      eapply Forall_impl; [|exact IHb]. simpl. intros p Hp. lra.
Qed.

(** X16. With positive weights, a target at or below 0 gives the
    smallest value and a target at or above 100 the largest. *)
Theorem weighted_percentile_clamps vs ws :
  vs <> [] -> (length vs <= length ws)%nat -> Forall (fun w => 0 < w) ws ->
  exists m M,
    In m vs /\ In M vs /\ Forall (fun v => m <= v /\ v <= M) vs /\
    (forall x, x <= 0 -> weighted_percentile [x] vs ws = Some [m]) /\
    (forall x, 100 <= x -> weighted_percentile [x] vs ws = Some [M]).
Proof.
  intros Hne Hlen Hw.
  destruct (argsort_sorts vs) as [Hsorted Hperm].
  pose proof (argsort_length vs) as Hil. pose proof (argsort_bounded vs) as Hib.
  set (idx := argsort vs) in *. set (svs := at_idx 0 vs idx) in *.
  set (sws := at_idx 0 ws idx).
  assert (Hsl : length svs = length vs) by (unfold svs, at_idx; rewrite length_map; exact Hil).
  assert (Hwl : length sws = length vs) by (unfold sws, at_idx; rewrite length_map; exact Hil).
  assert (Hsw : Forall (fun w => 0 < w) sws).
  { unfold sws, at_idx. apply Forall_forall. intros w Hin. apply in_map_iff in Hin.
    destruct Hin as (i & <- & Hi). rewrite Forall_forall in Hib, Hw.
    apply Hw. apply nth_In. specialize (Hib i Hi). lia. }
  assert (Hsne : sws <> []) by (destruct sws; [destruct vs; simpl in *; congruence|discriminate]).
  pose proof (cdf_in_range sws Hsw Hsne) as Hcdf.
  pose proof (np_sum_pos sws Hsne Hsw) as Hpos.
  set (cdf := zip_with (fun c w => 100 * (c - w / 2) / np_sum sws) (cumsum sws) sws) in *.
  assert (Hcl : length cdf = length svs).
  { unfold cdf. rewrite zip_with_length. unfold cumsum. rewrite cumsum_from_length. lia. }
  assert (Hmono : nondecreasing cdf = true).
  { assert (Hnn : Forall (fun w => 0 <= w) sws).
    { eapply Forall_impl; [|exact Hsw]. simpl. intros w Hw0. lra. }
    exact (proj1 (cdf_nondecreasing (np_sum sws) sws Hpos Hnn 0)). }
  assert (Hwp : forall x, weighted_percentile [x] vs ws =
     Some [match interp1 x cdf svs with Some y => y | None => 0 end]).
  { intros x. unfold weighted_percentile.
    destruct (length ws <? length vs)%nat eqn:E; [apply Nat.ltb_lt in E; lia|].
    cbv zeta. fold idx. fold sws. fold svs.
    destruct (Qeq_bool (np_sum sws) 0) eqn:E0; [apply Qeq_bool_eq in E0; lra|].
    fold cdf. apply interp_sorted; [|exact Hcl|exact Hmono].
    intros Hnil. rewrite Hnil in Hcl. simpl in Hcl. destruct vs; simpl in *; [congruence|lia]. }
  clear Hmono.
  destruct svs as [|y0 fp'] eqn:Esv; [destruct vs; simpl in *; congruence|].
  destruct cdf as [|x0 xp'] eqn:Ecdf; [simpl in Hcl; lia|].
  inversion Hcdf as [|? ? [H0 H100] Hrest]; subst.
  exists y0, (last fp' y0).
  assert (Hin : forall v, In v (y0 :: fp') -> In v vs).
  { intros v Hv. apply (Permutation_in _ Hperm). exact Hv. }
  split; [apply Hin; now left|]. split.
  { apply Hin. apply last_In_default. }
  split.
  { apply Forall_forall. intros v Hv. apply (Permutation_in _ (Permutation_sym Hperm)) in Hv.
    split.
    - destruct Hv as [<-|Hv]; [lra|]. apply StronglySorted_inv in Hsorted.
      destruct Hsorted as [_ Hall]. rewrite Forall_forall in Hall. auto.
    - pose proof (sorted_last_max (y0 :: fp') y0 Hsorted) as Hmax.
      rewrite last_cons_self in Hmax.
      rewrite Forall_forall in Hmax. exact (Hmax v Hv). }
  split.
  - intros x Hx. rewrite Hwp. simpl.
    assert (E : Qle_bool x0 x = false).
    { destruct (Qle_bool x0 x) eqn:E; [apply Qle_bool_iff in E; lra|reflexivity]. }
    rewrite E. reflexivity.
  - intros x Hx. rewrite Hwp. simpl.
    assert (E : Qle_bool x0 x = true) by (apply Qle_bool_iff; lra).
    rewrite E. rewrite interp_from_all_passed; [reflexivity| |simpl in Hcl; lia].
    eapply Forall_impl; [|exact Hrest]. simpl. intros p [_ Hp]. lra.
Qed.

Lemma weighted_percentile_clamps_witness :
  exists m M,
    In m [30; 10; 20] /\ In M [30; 10; 20] /\
    Forall (fun v => m <= v /\ v <= M) [30; 10; 20] /\
    (forall x, x <= 0 -> weighted_percentile [x] [30; 10; 20] [1; 1; 2] = Some [m]) /\
    (forall x, 100 <= x -> weighted_percentile [x] [30; 10; 20] [1; 1; 2] = Some [M]).
Proof.
  apply (weighted_percentile_clamps [30; 10; 20] [1; 1; 2]).
  - discriminate.
  - simpl. lia.
  - repeat constructor.
Defined.

Lemma combine_seq_snd (vs : list Q) s :
  map snd (combine vs (seq s (length vs))) = seq s (length vs).
Proof.
  revert s. induction vs as [|v t IH]; intros s; simpl; [reflexivity|]. now rewrite IH.
Qed.

(** [np.argsort] returns a permutation of the positions. *)
Lemma argsort_perm vs : Permutation (argsort vs) (seq 0 (length vs)).
Proof.
  unfold argsort.
  destruct (sorted_pairs_spec (combine vs (seq 0 (length vs)))) as [_ Hp].
  rewrite (Permutation_map snd Hp). rewrite combine_seq_snd. reflexivity.
Qed.

Lemma at_idx_all (l : list Q) : at_idx 0 l (seq 0 (length l)) = l.
Proof.
  pose proof (at_idx_seq 0 l 0%nat) as H. rewrite Nat.sub_0_r in H. exact H.
Qed.

Lemma np_sum_perm l l' : Permutation l l' -> np_sum l == np_sum l'.
Proof.
  induction 1 as [|x l l' _ IH|x y l|l l' l'' _ IH1 _ IH2].
  - reflexivity.
  - rewrite !np_sum_cons, IH. reflexivity.
  - rewrite !np_sum_cons. ring.
  - rewrite IH1. exact IH2.
Qed.

(** X15. With as many weights as values, none negative and not all
    zero, [weighted_percentile] returns one value per requested
    percentile, each between any lower and upper bound of the values. *)
Theorem weighted_percentile_range lo hi percs vs ws :
  vs <> [] -> length vs = length ws ->
  Forall (fun w => 0 <= w) ws -> 0 < np_sum ws ->
  Forall (fun v => lo <= v /\ v <= hi) vs ->
  exists r, weighted_percentile percs vs ws = Some r /\
            length r = length percs /\ Forall (fun y => lo <= y /\ y <= hi) r.
Proof.
  intros Hne Hlen Hw Hsum Hv.
  pose proof (argsort_length vs) as Hil. pose proof (argsort_bounded vs) as Hib.
  pose proof (argsort_perm vs) as Hip.
  unfold weighted_percentile.
  destruct (length ws <? length vs)%nat eqn:E; [apply Nat.ltb_lt in E; lia|]. cbv zeta.
  set (idx := argsort vs) in *. set (svs := at_idx 0 vs idx). set (sws := at_idx 0 ws idx).
  assert (Hpw : Permutation sws ws).
  { unfold sws, at_idx. rewrite (Permutation_map (fun i => nth i ws 0) Hip).
    rewrite Hlen. fold (at_idx 0 ws (seq 0 (length ws))). rewrite at_idx_all. reflexivity. }
  assert (Hsw : Forall (fun w => 0 <= w) sws).
  { apply Forall_forall. intros w Hin. apply (Permutation_in _ Hpw) in Hin.
    rewrite Forall_forall in Hw. auto. }
  assert (Hpos : 0 < np_sum sws) by (rewrite (np_sum_perm _ _ Hpw); exact Hsum).
  destruct (Qeq_bool (np_sum sws) 0) eqn:E0; [apply Qeq_bool_eq in E0; lra|].
  set (cdf := zip_with (fun c w => 100 * (c - w / 2) / np_sum sws) (cumsum sws) sws).
  assert (Hsl : length svs = length vs) by (unfold svs, at_idx; rewrite length_map; exact Hil).
  assert (Hwl : length sws = length vs) by (unfold sws, at_idx; rewrite length_map; exact Hil).
  assert (Hcl : length cdf = length svs).
  { unfold cdf. rewrite zip_with_length. unfold cumsum. rewrite cumsum_from_length. lia. }
  assert (Hmono : nondecreasing cdf = true)
    by exact (proj1 (cdf_nondecreasing (np_sum sws) sws Hpos Hsw 0)).
  assert (Hcne : cdf <> []).
  { intros Hnil. rewrite Hnil in Hcl. simpl in Hcl. destruct vs; simpl in *; [congruence|lia]. }
  pose proof (interp_sorted percs cdf svs Hcne Hcl Hmono) as Hi.
  eexists. split; [exact Hi|].
  apply (interp_range lo hi percs cdf svs); [|exact Hi].
  unfold svs, at_idx. apply Forall_forall. intros y Hy. apply in_map_iff in Hy.
  destruct Hy as (i & <- & Hin).
  rewrite Forall_forall in Hib, Hv. apply Hv. apply nth_In. apply Hib. exact Hin.
Qed.

Lemma weighted_percentile_range_witness :
  exists r, weighted_percentile [0; 50; 75; 100] [30; 10; 20] [0; 1; 2] = Some r /\
            length r = 4%nat /\ Forall (fun y => 10 <= y /\ y <= 30) r.
Proof.
  apply (weighted_percentile_range 10 30 [0; 50; 75; 100] [30; 10; 20] [0; 1; 2]).
  - discriminate.
  - reflexivity.
  - repeat constructor; discriminate.
  - reflexivity.
  - repeat constructor; discriminate.
Defined.

(** ** [weighted_percentile] against the unweighted reference *)

Lemma Qfloor_unique (h : Q) (z : Z) :
  inject_Z z <= h -> h < inject_Z (z + 1) -> Qfloor h = z.
Proof.
  intros Hlo Hhi.
  assert (H1 : (z < Qfloor h + 1)%Z).
  { rewrite Zlt_Qlt. eapply Qle_lt_trans; [exact Hlo|]. apply Qlt_floor. }
  assert (H2 : (Qfloor h < z + 1)%Z).
  { rewrite Zlt_Qlt. eapply Qle_lt_trans; [apply Qfloor_le|exact Hhi]. }
  lia.
Qed.

Lemma inject_Z_S (k : nat) : inject_Z (Z.of_nat (S k)) == inject_Z (Z.of_nat k) + 1.
Proof. rewrite Nat2Z.inj_succ. unfold Z.succ. rewrite inject_Z_plus. reflexivity. Qed.

(** The reference at rank [k + f], [0 <= f < 1]. *)
Lemma hazen_at (s : list Q) (p : Q) (k : nat) (f : Q) :
  hazen_rank p (length s) == inject_Z (Z.of_nat k) + f -> 0 <= f -> f < 1 ->
  hazen_percentile s p == nth k s 0 + f * (nth (S k) s 0 - nth k s 0).
Proof.
  intros Hh Hf0 Hf1. unfold hazen_percentile. cbv zeta.
  set (h := hazen_rank p (length s)) in *. clearbody h.
  assert (Hfl : Qfloor h = Z.of_nat k).
  { apply Qfloor_unique.
    - rewrite Hh. lra.
    - rewrite Hh, inject_Z_plus. change (inject_Z 1) with 1. lra. }
  rewrite Hfl, Nat2Z.id.
  assert (Hfr : h - inject_Z (Z.of_nat k) == f) by (rewrite Hh; ring).
  rewrite Hfr. reflexivity.
Qed.

Lemma skipn_nth_cons (s : list Q) : forall k,
  (k < length s)%nat -> skipn k s = nth k s 0 :: skipn (S k) s.
Proof.
  induction s as [|a t IH]; intros k Hk; simpl in Hk; [lia|].
  destruct k as [|k]; [reflexivity|].
  change (skipn k t = nth k t 0 :: skipn (S k) t). apply IH. lia.
Qed.

Section HazenRank.
Variables (N K p : Q).
Hypothesis HN : 0 < N.

Lemma rank_ge : 100 * (K + (1#2)) / N <= p -> K <= p * N / 100 - (1#2).
Proof.
  intros H.
  assert (Hs : 0 <= N / 100) by (apply Qle_shift_div_l; lra).
  pose proof (Qmult_le_compat_r _ _ (N / 100) H Hs) as Hm.
  assert (E1 : 100 * (K + (1#2)) / N * (N / 100) == K + (1#2)) by (field; lra).
  assert (E2 : p * (N / 100) == p * N / 100) by field.
  rewrite E1, E2 in Hm. lra.
Qed.

Lemma rank_lt : p < 100 * (K + (1#2)) / N -> p * N / 100 - (1#2) < K.
Proof.
  intros H.
  assert (Hs : 0 < N / 100) by (apply Qlt_shift_div_l; lra).
  pose proof (Qmult_lt_compat_r _ _ (N / 100) Hs H) as Hm.
  assert (E1 : 100 * (K + (1#2)) / N * (N / 100) == K + (1#2)) by (field; lra).
  assert (E2 : p * (N / 100) == p * N / 100) by field.
  rewrite E1, E2 in Hm. lra.
Qed.

End HazenRank.

Lemma Qle_bool_false x y : Qle_bool x y = false -> y < x.
Proof.
  intros E. destruct (Qlt_le_dec y x) as [H|H]; [exact H|].
  apply Qle_bool_iff in H. congruence.
Qed.

(** Left of the first midpoint the reference is the smallest value. *)
Lemma hazen_left (s : list Q) (p : Q) :
  s <> [] -> p < midpoint_position (length s) 0 -> hazen_percentile s p == nth 0 s 0.
Proof.
  intros Hne Hp. set (n := length s) in *.
  assert (Hn : (0 < n)%nat) by (subst n; destruct s; [congruence|simpl; lia]).
  assert (HN : 0 < inject_Z (Z.of_nat n)).
  { change 0 with (inject_Z 0). rewrite <- Zlt_Qlt. lia. }
  assert (HN1 : 1 <= inject_Z (Z.of_nat n)).
  { change 1 with (inject_Z 1). rewrite <- Zle_Qle. lia. }
  unfold midpoint_position in Hp. change (inject_Z (Z.of_nat 0)) with 0 in Hp.
  pose proof (rank_lt (inject_Z (Z.of_nat n)) 0 p HN Hp) as Hr.
  rewrite (hazen_at s p 0 0); [ring| |lra|lra].
  fold n. unfold hazen_rank. change (inject_Z (Z.of_nat 0)) with 0.
  set (N := inject_Z (Z.of_nat n)) in *. clearbody N.
  set (u := p * N / 100 - (1#2)) in *. clearbody u.
  rewrite (Q.min_r (N - 1) u) by lra. rewrite Q.max_l by lra. ring.
Qed.

(** From the midpoint of step [k] on, [np.interp] over the midpoints
    reads the reference. *)
Lemma interp_from_hazen (s : list Q) (p : Q) : forall m k,
  (k + 1 + m = length s)%nat ->
  midpoint_position (length s) k <= p ->
  interp_from p (midpoint_position (length s) k) (nth k s 0)
              (map (midpoint_position (length s)) (seq (S k) m)) (skipn (S k) s)
  == hazen_percentile s p.
Proof.
  set (n := length s).
  induction m as [|m IH]; intros k Hk Hp.
  - simpl. symmetry.
    assert (HN : 0 < inject_Z (Z.of_nat n)).
    { change 0 with (inject_Z 0). rewrite <- Zlt_Qlt. lia. }
    pose proof (rank_ge (inject_Z (Z.of_nat n)) (inject_Z (Z.of_nat k)) p HN Hp) as Hr.
    assert (Hkn : inject_Z (Z.of_nat n) == inject_Z (Z.of_nat k) + 1).
    { replace n with (S k) by lia. apply inject_Z_S. }
    assert (Hk0 : 0 <= inject_Z (Z.of_nat k)).
    { change 0 with (inject_Z 0). rewrite <- Zle_Qle. lia. }
    rewrite (hazen_at s p k 0); [ring| |lra|lra].
    fold n. unfold hazen_rank.
    set (N := inject_Z (Z.of_nat n)) in *. clearbody N.
    set (K := inject_Z (Z.of_nat k)) in *. clearbody K.
    set (u := p * N / 100 - (1#2)) in *. clearbody u.
    rewrite (Q.min_l (N - 1) u) by lra. rewrite Q.max_r by lra. lra.
  - assert (Hlt : (S k < length s)%nat) by (fold n; lia).
    rewrite (skipn_nth_cons s (S k) Hlt).
    cbn [seq map]. cbn [interp_from].
    destruct (Qle_bool (midpoint_position n (S k)) p) eqn:E.
    + apply Qle_bool_iff in E. apply IH; [lia|exact E].
    + apply Qle_bool_false in E.
      assert (HN : 0 < inject_Z (Z.of_nat n)).
      { change 0 with (inject_Z 0). rewrite <- Zlt_Qlt. lia. }
      pose proof (rank_ge (inject_Z (Z.of_nat n)) (inject_Z (Z.of_nat k)) p HN Hp) as Hr.
      unfold midpoint_position in E.
      pose proof (rank_lt (inject_Z (Z.of_nat n)) (inject_Z (Z.of_nat (S k))) p HN E) as Hr'.
      rewrite inject_Z_S in Hr'.
      assert (Hkn : inject_Z (Z.of_nat k) + 2 <= inject_Z (Z.of_nat n)).
      { replace 2 with (inject_Z 2) by reflexivity.
        rewrite <- inject_Z_plus, <- Zle_Qle. lia. }
      assert (Hk0 : 0 <= inject_Z (Z.of_nat k)).
      { change 0 with (inject_Z 0). rewrite <- Zle_Qle. lia. }
      rewrite (hazen_at s p k (p * inject_Z (Z.of_nat n) / 100 - (1#2) - inject_Z (Z.of_nat k))).
      * unfold midpoint_position. rewrite inject_Z_S. fold n. field. lra.
      * fold n. unfold hazen_rank.
        set (N := inject_Z (Z.of_nat n)) in *. clearbody N.
        set (K := inject_Z (Z.of_nat k)) in *. clearbody K.
        set (u := p * N / 100 - (1#2)) in *. clearbody u.
        rewrite (Q.min_r (N - 1) u) by lra. rewrite Q.max_r by lra. ring.
      * lra.
      * lra.
Qed.

Lemma interp1_hazen (s : list Q) (p : Q) :
  s <> [] ->
  exists y, interp1 p (midpoint_positions (length s)) s = Some y /\ y == hazen_percentile s p.
Proof.
  intros Hne. destruct s as [|a t]; [congruence|].
  set (s := a :: t) in *. set (n := length s).
  assert (Hi : interp1 p (midpoint_positions n) s =
          Some (if Qle_bool (midpoint_position n 0) p
                then interp_from p (midpoint_position n 0) (nth 0 s 0)
                       (map (midpoint_position n) (seq 1 (length t))) (skipn 1 s)
                else nth 0 s 0)) by reflexivity.
  rewrite Hi. eexists. split; [reflexivity|].
  destruct (Qle_bool (midpoint_position n 0) p) eqn:E.
  - apply Qle_bool_iff in E.
    apply (interp_from_hazen s p (length t) 0%nat); [reflexivity|exact E].
  - apply Qle_bool_false in E. rewrite (hazen_left s p Hne E). reflexivity.
Qed.

Lemma filter_Qeq_perm q l l' :
  Permutation l l' -> length (filter (Qeq_bool q) l) = length (filter (Qeq_bool q) l').
Proof.
  induction 1 as [|x l l' _ IH|x y l|l l' l'' _ IH1 _ IH2]; simpl.
  - reflexivity.
  - destruct (Qeq_bool q x); simpl; congruence.
  - destruct (Qeq_bool q x), (Qeq_bool q y); reflexivity.
  - congruence.
Qed.

Lemma sorted_head_le (a b : Q) (t : list Q) :
  StronglySorted Qle (a :: t) -> (0 < length (filter (Qeq_bool b) (a :: t)))%nat -> a <= b.
Proof.
  intros Hs Hc. destruct (filter (Qeq_bool b) (a :: t)) as [|x f] eqn:Ef; [simpl in Hc; lia|].
  assert (Hin : In x (filter (Qeq_bool b) (a :: t))) by (rewrite Ef; now left).
  apply filter_In in Hin. destruct Hin as [Hin Hx]. apply Qeq_bool_eq in Hx.
  apply StronglySorted_inv in Hs. destruct Hs as [_ Hall]. rewrite Forall_forall in Hall.
  destruct Hin as [<-|Hin]; [rewrite Hx; apply Qle_refl|].
  rewrite Hx. auto.
Qed.

Lemma Qeq_bool_refl' (q : Q) : Qeq_bool q q = true.
Proof. apply Qeq_bool_iff. reflexivity. Qed.

Lemma Qeq_bool_ext (q a b : Q) : a == b -> Qeq_bool q a = Qeq_bool q b.
Proof.
  intros Hab. destruct (Qeq_bool q a) eqn:E1, (Qeq_bool q b) eqn:E2; try reflexivity.
  - apply Qeq_bool_iff in E1. assert (H : q == b) by (rewrite E1; exact Hab).
    apply Qeq_bool_iff in H. congruence.
  - apply Qeq_bool_iff in E2. assert (H : q == a) by (rewrite E2; symmetry; exact Hab).
    apply Qeq_bool_iff in H. congruence.
Qed.

(** Two ascending arrangements of the same values agree position by
    position. *)
Lemma sorted_counts_Qeq : forall s s',
  StronglySorted Qle s -> StronglySorted Qle s' ->
  (forall q, length (filter (Qeq_bool q) s) = length (filter (Qeq_bool q) s')) ->
  Forall2 Qeq s s'.
Proof.
  induction s as [|a t IH]; intros [|b t'] Hs Hs' Hc.
  - constructor.
  - specialize (Hc b). simpl in Hc. rewrite Qeq_bool_refl' in Hc. discriminate.
  - specialize (Hc a). simpl in Hc. rewrite Qeq_bool_refl' in Hc. discriminate.
  - assert (Hab : a <= b).
    { apply (sorted_head_le a b t Hs). rewrite (Hc b). simpl.
      rewrite Qeq_bool_refl'. simpl. lia. }
    assert (Hba : b <= a).
    { apply (sorted_head_le b a t' Hs'). rewrite <- (Hc a). simpl.
      rewrite Qeq_bool_refl'. simpl. lia. }
    assert (Heq : a == b) by (apply Qle_antisym; assumption).
    constructor; [exact Heq|].
    apply IH.
    + apply StronglySorted_inv in Hs. tauto.
    + apply StronglySorted_inv in Hs'. tauto.
    + intros q. specialize (Hc q). simpl in Hc.
      rewrite (Qeq_bool_ext q a b Heq) in Hc.
      destruct (Qeq_bool q b); simpl in Hc; congruence.
Qed.

Lemma sorted_perm_Qeq (s s' : list Q) :
  StronglySorted Qle s -> StronglySorted Qle s' -> Permutation s s' -> Forall2 Qeq s s'.
Proof.
  intros Hs Hs' Hp. apply sorted_counts_Qeq; [assumption|assumption|].
  intros q. apply filter_Qeq_perm. exact Hp.
Qed.

Lemma nth_Qeq (s s' : list Q) : Forall2 Qeq s s' -> forall k, nth k s 0 == nth k s' 0.
Proof.
  induction 1 as [|a b t t' Hab _ IH]; intros [|k]; simpl; auto; reflexivity.
Qed.

Lemma hazen_percentile_ext (s s' : list Q) (p : Q) :
  Forall2 Qeq s s' -> hazen_percentile s p == hazen_percentile s' p.
Proof.
  intros HF. unfold hazen_percentile. cbv zeta. rewrite (Forall2_length HF).
  rewrite !(nth_Qeq s s' HF). reflexivity.
Qed.

(** C6. For a non-empty array of values that all carry the same positive
    weight, [weighted_percentile] returns, at every requested percentile,
    the value of the unweighted reference read from the values in
    ascending order (midpoint-of-step positions, linear interpolation,
    clamped at both ends). *)
Theorem uniform_weights_match_reference (percs vs s : list Q) (w : Q) :
  vs <> [] -> 0 < w -> StronglySorted Qle s -> Permutation s vs ->
  exists r, weighted_percentile percs vs (repeat w (length vs)) = Some r /\
            Forall2 Qeq r (map (hazen_percentile s) percs).
Proof.
  intros Hne Hw Hs Hp.
  destruct (argsort_sorts vs) as [Hsorted Hperm].
  pose proof (argsort_length vs) as Hil.
  unfold weighted_percentile.
  rewrite repeat_length, Nat.ltb_irrefl. cbv zeta.
  rewrite (at_idx_repeat w (length vs) (argsort vs) (argsort_bounded vs)).
  rewrite Hil.
  set (svs := at_idx 0 vs (argsort vs)) in *.
  assert (Hsl : length svs = length vs) by (unfold svs, at_idx; rewrite length_map; exact Hil).
  set (n := length vs) in *.
  assert (Hn : (0 < n)%nat) by (subst n; destruct vs; [congruence|simpl; lia]).
  assert (HN : 0 < inject_Z (Z.of_nat n)).
  { change 0 with (inject_Z 0). rewrite <- Zlt_Qlt. lia. }
  pose proof (np_sum_repeat w n) as Hsum.
  assert (Hpos : 0 < np_sum (repeat w n)) by (rewrite Hsum; apply Qmult_lt_0_compat; assumption).
  destruct (Qeq_bool (np_sum (repeat w n)) 0) eqn:E; [apply Qeq_bool_eq in E; lra|].
  set (cdf := zip_with (fun c w0 => 100 * (c - w0 / 2) / np_sum (repeat w n))
                       (cumsum (repeat w n)) (repeat w n)).
  assert (Hcdf : Forall2 Qeq cdf (midpoint_positions n)).
  { unfold cdf, cumsum, midpoint_positions, midpoint_position.
    apply (cdf_uniform w (np_sum (repeat w n)) (inject_Z (Z.of_nat n)) n 0%nat 0); auto.
    simpl. ring. }
  assert (Hcl : length cdf = length svs).
  { rewrite (Forall2_length Hcdf). unfold midpoint_positions.
    rewrite length_map, length_seq. lia. }
  assert (Hmono : nondecreasing cdf = true).
  { assert (Hnn : Forall (fun x => 0 <= x) (repeat w n)).
    { apply Forall_forall. intros x Hx. apply repeat_spec in Hx. subst x. lra. }
    exact (proj1 (cdf_nondecreasing (np_sum (repeat w n)) (repeat w n) Hpos Hnn 0)). }
  assert (Hcne : cdf <> []).
  { intros Hnil. rewrite Hnil in Hcl. simpl in Hcl. lia. }
  assert (Hsne : svs <> []).
  { intros Hnil. rewrite Hnil in Hsl. simpl in Hsl. lia. }
  pose proof (interp_ext percs cdf (midpoint_positions n) svs Hcdf) as Hext.
  rewrite (interp_sorted percs cdf svs Hcne Hcl Hmono) in Hext.
  rewrite (interp_sorted percs (midpoint_positions n) svs) in Hext.
  2: { intros Hnil. rewrite Hnil in Hcdf. inversion Hcdf; subst. congruence. }
  2: { rewrite <- (Forall2_length Hcdf). exact Hcl. }
  2: { rewrite <- (nondecreasing_ext _ _ Hcdf). exact Hmono. }
  rewrite (interp_sorted percs cdf svs Hcne Hcl Hmono).
  eexists. split; [reflexivity|].
  assert (Hss : Forall2 Qeq svs s).
  { apply sorted_perm_Qeq; [exact Hsorted|exact Hs|].
    rewrite Hperm. symmetry. exact Hp. }
  clear -Hext Hss Hsne Hsl. revert Hext.
  generalize (fun x : Q => match interp1 x cdf svs with Some y => y | None => 0 end).
  intros g Hext.
  induction percs as [|p percs IH]; simpl in *; [constructor|].
  inversion Hext as [|? ? ? ? Hhd Htl]; subst.
  constructor; [|apply IH; exact Htl].
  rewrite Hhd. rewrite <- Hsl.
  destruct (interp1_hazen svs p Hsne) as (y & Hy & Hyh).
  rewrite Hy, Hyh. apply hazen_percentile_ext. exact Hss.
Qed.

Lemma uniform_weights_match_reference_witness :
  exists r, weighted_percentile [50; 90; 95; 99] [3; 1; 2] (repeat 2 (length [3; 1; 2])) = Some r /\
            Forall2 Qeq r (map (hazen_percentile [1; 2; 3]) [50; 90; 95; 99]).
Proof.
  apply (uniform_weights_match_reference [50; 90; 95; 99] [3; 1; 2] [1; 2; 3] 2).
  - discriminate.
  - reflexivity.
  - repeat constructor; discriminate.
  - apply (perm_trans (l' := [1; 3; 2])).
    + apply perm_skip, perm_swap.
    + apply (perm_trans (l' := [3; 1; 2])); [apply perm_swap|apply Permutation_refl].
Defined.

(** ** The merge, continued *)

Section MergerMore.
Local Open Scope Z_scope.

Lemma nth_upd_other {A} (d : A) (l : list A) i j x :
  j <> i -> nth j (upd i x l) d = nth j l d.
Proof.
  revert i j. induction l as [|h t IH]; intros [|i] [|j] Hne; simpl; try reflexivity; try congruence.
  apply IH. congruence.
Qed.

Lemma nth_upd_at {A} (d : A) (l : list A) i x :
  (i < length l)%nat -> nth i (upd i x l) d = x.
Proof.
  revert i. induction l as [|h t IH]; intros [|i] Hi; simpl in *; try lia; [reflexivity|].
  apply IH. lia.
Qed.

Lemma gen_run_any nrows sz : nrows <> Some 0%nat ->
  forall fuel st,
    gen_inv st ->
    (count_rows (remaining st) < fuel)%nat ->
    exists out, gen_run_with nrows sz fuel st = Some out /\
                Permutation out (tag_from 0 (remaining st)) /\
                length out = count_rows (remaining st) /\
                forall i, from_file i out = nth i (remaining st) [].
Proof.
  intros Hn. induction fuel as [|fuel IH]; intros st Hinv Hfuel; [lia|].
  simpl. pose proof (gen_next_spec nrows sz st Hn Hinv) as Hstep.
  destruct (gen_next_with nrows sz st) as [s st'| |]; [| |contradiction].
  - destruct Hstep as (Hinv' & r & tl & Hs & Hnth & Hrem & Hleast).
    pose proof (count_rows_upd _ _ _ _ Hnth) as Hcnt.
    assert (Hcount : (count_rows (remaining st') < fuel)%nat) by (rewrite Hrem; lia).
    destruct (IH st' Hinv' Hcount) as (out & Hrun & Hperm & Hlen & Hfile).
    rewrite Hrun. exists (s :: out). split; [reflexivity|]. split; [|split].
    + rewrite Hperm, Hrem, Hs. apply (tag_from_upd (remaining st) (s_file s) 0%nat r tl Hnth).
    + simpl. rewrite Hlen, Hrem. lia.
    + intros i. unfold from_file in *. simpl filter.
      destruct (Nat.eqb (s_file s) i) eqn:E.
      * apply Nat.eqb_eq in E. subst i. simpl map. rewrite Hfile, Hrem.
        rewrite nth_upd_at by (apply nth_error_Some; rewrite Hnth; discriminate).
        rewrite (nth_error_nth _ _ _ Hnth). f_equal.
        rewrite Hs. unfold untag, tag, s_time, s_hist. simpl. destruct r; reflexivity.
      * apply Nat.eqb_neq in E. rewrite Hfile, Hrem. apply nth_upd_other. congruence.
  - exists []. split; [reflexivity|]. rewrite (count_rows_nil _ Hstep).
    split; [constructor|]. split.
    + simpl. clear -Hstep. induction Hstep as [|l t Hl Ht IHt]; [reflexivity|].
      simpl. subst l. exact IHt.
    + intros i. unfold from_file. simpl. rewrite Forall_forall in Hstep.
      destruct (nth_in_or_default i (remaining st) []) as [Hin|Hd]; [|now rewrite Hd].
      symmetry. apply Hstep. exact Hin.
Qed.

(** X17. With a chunk size of at least 1 and whatever the order of the
    rows in the files, the generator terminates, yields as many records as
    there are rows, a permutation of the tagged input records, and yields
    the rows of each file in the order of the file. *)
Theorem histogram_generator_any_input fps sz :
  sz <> 0%nat ->
  exists out, histogram_generator fps sz = Some out /\
              Permutation out (tagged_input fps) /\
              length out = total_rows fps /\
              forall i, from_file i out =
                        map (fun r => (raw_time r, raw_hists r)) (nth i fps []).
Proof.
  intros Hsz. unfold histogram_generator, gen_init.
  rewrite (setup_raises_false fps sz Hsz), <- tagged_union_input.
  destruct (gen_init_inv None fps sz ltac:(discriminate) Hsz) as [Hinv Hrem].
  destruct (gen_run_any None sz ltac:(discriminate) (S (total_rows fps)) _ Hinv)
    as (out & Hrun & Hperm & Hlen & Hfile).
  - rewrite Hrem, count_rows_strip. lia.
  - exists out. rewrite Hrem in *. rewrite count_rows_strip in Hlen.
    repeat split; try assumption.
    intros i. rewrite Hfile. change (@nil row) with (map strip_row []).
    rewrite map_nth. reflexivity.
Qed.

Lemma histogram_generator_any_input_witness :
  exists out,
    histogram_generator [[mk_row 9 [1]; mk_row 5 [2]]; [mk_row 7 [3]]] 2 = Some out /\
    Permutation out (tagged_input [[mk_row 9 [1]; mk_row 5 [2]]; [mk_row 7 [3]]]) /\
    length out = total_rows [[mk_row 9 [1]; mk_row 5 [2]]; [mk_row 7 [3]]] /\
    forall i, from_file i out =
              map (fun r => (raw_time r, raw_hists r))
                  (nth i [[mk_row 9 [1]; mk_row 5 [2]]; [mk_row 7 [3]]] []).
Proof.
  apply (histogram_generator_any_input [[mk_row 9 [1]; mk_row 5 [2]]; [mk_row 7 [3]]] 2).
  discriminate.
Defined.

End MergerMore.

(** ** The interval aggregator, continued *)

(** X19. A sample whose bins all start at or after [iEnd] leaves the
    histogram, the sample count and both extremes of the interval as they
    were. *)
Theorem process_sample_not_yet_started interval tbl iStart iEnd a s :
  Forall (fun st => iEnd <= st) (start_times_of interval tbl (s_time s)) ->
  iHist (process_sample interval tbl iStart iEnd a s) = iHist a /\
  ss_cnt (process_sample interval tbl iStart iEnd a s) = ss_cnt a /\
  mn_bin_val (process_sample interval tbl iStart iEnd a s) = mn_bin_val a /\
  mx_bin_val (process_sample interval tbl iStart iEnd a s) = mx_bin_val a.
Proof.
  intros Hall. destruct s as [[end_time file] hist]. unfold s_time in Hall. simpl in Hall.
  unfold process_sample.
  assert (Hidx : np_where (qualifies iEnd) (start_times_of interval tbl end_time) = []).
  { unfold np_where. apply (where_from_nil _ 0). intros j Hj.
    rewrite Forall_forall in Hall. specialize (Hall _ (nth_In _ 0 Hj)).
    unfold qualifies. destruct (Qlt_le_dec _ iEnd); [lra|reflexivity]. }
  rewrite Hidx. cbn. repeat split. lia.
Qed.

Lemma process_sample_not_yet_started_witness :
  ss_cnt (process_sample 1000 (make_tables 5 8) 0 1000 (interval_init (make_tables 5 8))
                         (40000%Z, 0%nat, [1; 2; 3; 4; 5]%Z)) = 0%Z /\
  mn_bin_val (process_sample 1000 (make_tables 5 8) 0 1000 (interval_init (make_tables 5 8))
                             (40000%Z, 0%nat, [1; 2; 3; 4; 5]%Z)) = None.
Proof.
  destruct (process_sample_not_yet_started 1000 (make_tables 5 8) 0 1000
              (interval_init (make_tables 5 8)) (40000%Z, 0%nat, [1; 2; 3; 4; 5]%Z))
    as (_ & H2 & H3 & _).
  - repeat constructor; vm_compute; discriminate.
  - split; [exact H2|exact H3].
Defined.

Lemma where_from_sorted {A} (p : A -> bool) l : forall k, StronglySorted lt (where_from p k l).
Proof.
  induction l as [|x t IH]; intros k; simpl; [constructor|].
  destruct (p x); [|apply IH]. constructor; [apply IH|].
  eapply Forall_impl; [|apply (where_from_ge p (S k) t)]. simpl. intros; lia.
Qed.

Lemma sorted_nth_lt (l : list nat) : StronglySorted lt l ->
  forall i j, (i < j)%nat -> (j < length l)%nat -> (nth i l 0 < nth j l 0)%nat.
Proof.
  induction 1 as [|a t Hs IH Hall]; intros i j Hij Hj; simpl in Hj; [lia|].
  destruct j as [|j]; [lia|]. destruct i as [|i]; simpl.
  - rewrite Forall_forall in Hall. apply Hall. apply nth_In. lia.
  - apply IH; lia.
Qed.

Lemma sorted_nth_Qle (l : list Q) : StronglySorted Qle l ->
  forall i j, (i <= j)%nat -> (j < length l)%nat -> nth i l 0 <= nth j l 0.
Proof.
  induction 1 as [|a t Hs IH Hall]; intros i j Hij Hj; simpl in Hj; [lia|].
  destruct j as [|j]; destruct i as [|i]; simpl; try lia; try apply Qle_refl.
  - rewrite Forall_forall in Hall. apply Hall. apply nth_In. lia.
  - apply IH; lia.
Qed.

Lemma Forall2_nth_Qle (l l' : list Q) : Forall2 Qle l l' ->
  forall i, (i < length l)%nat -> nth i l 0 <= nth i l' 0.
Proof.
  induction 1 as [|a b t t' Hab Ht IH]; intros [|i] Hi; simpl in *; try lia; [exact Hab|].
  apply IH. lia.
Qed.

Lemma py_min_le_l a b : py_min a b <= a.
Proof. unfold py_min. destruct (Qlt_le_dec b a); lra. Qed.

Lemma py_min_le_r a b : py_min a b <= b.
Proof. unfold py_min. destruct (Qlt_le_dec b a); lra. Qed.

Lemma py_max_ge_l a b : a <= py_max a b.
Proof. unfold py_max. destruct (Qlt_le_dec a b); lra. Qed.

Lemma py_max_ge_r a b : b <= py_max a b.
Proof. unfold py_max. destruct (Qlt_le_dec a b); lra. Qed.

Lemma update_extremes_ordered mn mx x y :
  extremes_ordered mn mx -> x <= y ->
  extremes_ordered (update_extreme mn py_min x) (update_extreme mx py_max y).
Proof.
  unfold extremes_ordered, update_extreme. destruct mn as [a|], mx as [b|]; try contradiction.
  - intros Hab Hxy. pose proof (py_min_le_r a x). pose proof (py_max_ge_r b y). lra.
  - intros _ Hxy. exact Hxy.
Qed.

Lemma process_sample_ordered interval tbl iStart iEnd a s :
  length (t_lower_bin_vals tbl) = length (t_bin_vals tbl) ->
  StronglySorted Qle (t_lower_bin_vals tbl) ->
  Forall2 Qle (t_lower_bin_vals tbl) (t_upper_bin_vals tbl) ->
  extremes_ordered (mn_bin_val a) (mx_bin_val a) ->
  extremes_ordered (mn_bin_val (process_sample interval tbl iStart iEnd a s))
                   (mx_bin_val (process_sample interval tbl iStart iEnd a s)).
Proof.
  intros Hlen Hsorted Hlu Ha. destruct s as [[end_time file] hist].
  unfold process_sample. cbv zeta.
  set (idx := np_where (qualifies iEnd) (start_times_of interval tbl end_time)).
  set (hs := at_idx 0%Z hist idx).
  destruct (np_where nonzero hs) as [|i0 rest] eqn:Ew; cbn [mn_bin_val mx_bin_val]; [exact Ha|].
  apply update_extremes_ordered; [exact Ha|].
  unfold np_where in Ew.
  destruct (where_from_hd nonzero 0%Z 0%nat _ _ _ Ew) as (Hr0 & Hp0 & Hz0).
  pose proof (where_from_last nonzero 0%Z 0%nat hs i0) as Hlast.
  rewrite Ew in Hlast. destruct Hlast as (Hr1 & Hp1 & Hz1); [discriminate|].
  set (i1 := last (i0 :: rest) i0) in *.
  rewrite Nat.sub_0_r in *.
  assert (Hhs : length hs = length idx) by (unfold hs, at_idx; apply length_map).
  assert (H01 : (i0 <= i1)%nat).
  { destruct (Nat.le_gt_cases i0 i1) as [H|H]; [exact H|].
    rewrite (Hz0 i1 H) in Hp1. discriminate. }
  set (lo := Z.to_nat (Z.max 0 (Z.of_nat i0 - 1))).
  set (hi := Z.to_nat (Z.min (Z.of_nat (length hs) - 1) (Z.of_nat i1 + 1))).
  assert (Hlohi : (lo <= hi)%nat) by (unfold lo, hi; lia).
  assert (Hhi : (hi < length idx)%nat) by (unfold hi; lia).
  unfold at_idx.
  rewrite (nth_map_in_range _ idx lo 0 0%nat) by lia.
  rewrite (nth_map_in_range _ idx hi 0 0%nat) by lia.
  assert (Hidx_le : (nth lo idx 0 <= nth hi idx 0)%nat).
  { destruct (Nat.eq_dec lo hi) as [->|Hne]; [lia|].
    pose proof (sorted_nth_lt idx (where_from_sorted _ _ 0%nat) lo hi ltac:(lia) Hhi). lia. }
  assert (Hidx_hi : (nth hi idx 0 < length (t_lower_bin_vals tbl))%nat).
  { pose proof (where_from_ge (qualifies iEnd) 0%nat (start_times_of interval tbl end_time)) as Hge.
    rewrite Forall_forall in Hge. specialize (Hge (nth hi idx 0%nat) (nth_In _ _ Hhi)).
    unfold start_times_of in Hge. rewrite length_map in Hge. lia. }
  eapply Qle_trans; [apply (sorted_nth_Qle _ Hsorted _ _ Hidx_le Hidx_hi)|].
  apply Forall2_nth_Qle; assumption.
Qed.

Lemma fold_ordered interval tbl iStart iEnd samples :
  length (t_lower_bin_vals tbl) = length (t_bin_vals tbl) ->
  StronglySorted Qle (t_lower_bin_vals tbl) ->
  Forall2 Qle (t_lower_bin_vals tbl) (t_upper_bin_vals tbl) ->
  forall a, extremes_ordered (mn_bin_val a) (mx_bin_val a) ->
  extremes_ordered
    (mn_bin_val (fold_left (process_sample interval tbl iStart iEnd) samples a))
    (mx_bin_val (fold_left (process_sample interval tbl iStart iEnd) samples a)).
Proof.
  intros Hlen Hs Hlu. induction samples as [|s t IH]; intros a Ha; simpl; [exact Ha|].
  apply IH. apply process_sample_ordered; assumption.
Qed.

(** The extremes stay ordered for any tables whose lower bounds are
    non-decreasing and at or below the upper bounds. *)
Lemma process_interval_ordered interval tbl samples iStart iEnd r :
  length (t_lower_bin_vals tbl) = length (t_bin_vals tbl) ->
  StronglySorted Qle (t_lower_bin_vals tbl) ->
  Forall2 Qle (t_lower_bin_vals tbl) (t_upper_bin_vals tbl) ->
  process_interval interval tbl samples iStart iEnd = Some r ->
  extremes_ordered (r_mn r) (r_mx r).
Proof.
  intros Hlen Hs Hlu Hr. unfold process_interval in Hr. cbv zeta in Hr.
  destruct (0 <? _)%Z; [|discriminate]. injection Hr as <-. cbn [r_mn r_mx].
  apply fold_ordered; try assumption. exact I.
Qed.

(** X22. With the tables [main] builds for a coarseness [c >= 0] and a
    finest bin index [H * 2^c] below 3712, a printed row has both extremes
    set with the minimum at or below the maximum, or both unset. *)
Theorem process_interval_min_le_max interval (H : nat) (c : Z) samples iStart iEnd r :
  (0 <= c)%Z -> (Z.of_nat H * 2 ^ c < 3712)%Z ->
  process_interval interval (make_tables H c) samples iStart iEnd = Some r ->
  extremes_ordered (r_mn r) (r_mx r).
Proof.
  intros Hc Hb Hr.
  apply (process_interval_ordered interval (make_tables H c) samples iStart iEnd r).
  - unfold make_tables, lower_bin_vals, bin_vals. simpl. now rewrite !length_map.
  - apply lower_bin_vals_sorted; assumption.
  - apply lower_le_upper_tables; assumption.
  - exact Hr.
Qed.

Lemma process_interval_min_le_max_witness :
  exists r,
    process_interval 1000 (make_tables 5 8)
      [(500%Z, 0%nat, [1; 0; 0; 0; 0]%Z); (1501%Z, 0%nat, [0; 7; 0; 0; 0]%Z)] 0 1000 = Some r /\
    extremes_ordered (r_mn r) (r_mx r).
Proof.
  eexists. split; [vm_compute; reflexivity|].
  match goal with
  | |- extremes_ordered (r_mn ?r) _ =>
      apply (process_interval_min_le_max 1000 5 8
               [(500%Z, 0%nat, [1; 0; 0; 0; 0]%Z); (1501%Z, 0%nat, [0; 7; 0; 0; 0]%Z)]
               0 1000 r)
  end.
  - lia.
  - reflexivity.
  - vm_compute. reflexivity.
Defined.

(** ** The driver loop *)

(** X23. When the run starts at 0 and the first row ends more than
    [max_latency] after the first interval, the interval jumps to
    [s', s' + interval] with [s'] the multiple of the interval such that
    s' <= first - max_latency < s' + interval. *)
Theorem first_interval_snaps interval max_latency start end_ first_time :
  (0 < interval)%Z -> start == 0 -> end_ < inject_Z first_time - max_latency ->
  exists s' k,
    first_interval interval max_latency start end_ first_time =
      Some (s', s' + inject_Z interval) /\
    s' == inject_Z (k * interval) /\
    s' <= inject_Z first_time - max_latency /\
    inject_Z first_time - max_latency < s' + inject_Z interval.
Proof.
  intros Hpos Hs He. unfold first_interval.
  assert (H0 : Qeq_bool start 0 = true) by (apply Qeq_eq_bool; exact Hs).
  rewrite H0. destruct (Qlt_le_dec end_ (inject_Z first_time - max_latency)) as [_|Hc]; [|lra].
  cbn [andb].
  destruct (interval =? 0)%Z eqn:Ei; [apply Z.eqb_eq in Ei; lia|]. cbv zeta.
  set (x := inject_Z first_time - max_latency).
  set (k := Qfloor (x / inject_Z interval)).
  exists (x - py_fmod x interval), k. split; [reflexivity|].
  assert (HN : 0 < inject_Z interval).
  { change 0 with (inject_Z 0). rewrite <- Zlt_Qlt. exact Hpos. }
  assert (Hval : x - py_fmod x interval == inject_Z (k * interval)).
  { unfold py_fmod. fold k. rewrite (Z.mul_comm k interval). ring. }
  split; [exact Hval|]. rewrite Hval, inject_Z_mult.
  pose proof (Qfloor_le (x / inject_Z interval)) as Hlo. fold k in Hlo.
  pose proof (Qlt_floor (x / inject_Z interval)) as Hhi. fold k in Hhi.
  rewrite inject_Z_plus in Hhi. simpl (inject_Z 1) in Hhi.
  assert (Hx : x == x / inject_Z interval * inject_Z interval) by (field; lra).
  pose proof (Qmult_le_compat_r _ _ (inject_Z interval) Hlo ltac:(lra)) as H1.
  pose proof (Qmult_lt_compat_r _ _ (inject_Z interval) HN Hhi) as H2.
  clearbody k. clearbody x. set (q := x / inject_Z interval) in *. clearbody q.
  clear Hval. set (N := inject_Z interval) in *. set (K := inject_Z k) in *.
  clearbody N K. change (inject_Z 1) with 1 in H2.
  setoid_replace ((K + 1) * N) with (K * N + N) in H2 by ring.
  set (a := q * N) in *. set (b := K * N) in *. clearbody a b. split; lra.
Qed.

Lemma first_interval_snaps_witness :
  exists s' k,
    first_interval 1000 20 0 1000 1700000123 = Some (s', s' + inject_Z 1000) /\
    s' == inject_Z (k * 1000) /\
    s' <= inject_Z 1700000123 - 20 /\
    inject_Z 1700000123 - 20 < s' + inject_Z 1000.
Proof.
  apply (first_interval_snaps 1000 20 0 1000 1700000123).
  - reflexivity.
  - reflexivity.
  - reflexivity.
Defined.

(** X24. The inner loop only appends to the buffer, and it stops either
    with the generator exhausted and [more_data] cleared, or with
    [more_data] unchanged and a last buffered row that ends at or after
    [max_latency * 1000 + end]. *)
Theorem fill_buffer_post sz max_latency end_ : forall fuel arr gen more_data arr' gen' more_data',
  fill_buffer fuel sz max_latency end_ arr gen more_data = Some (arr', gen', more_data') ->
  (exists new, arr' = arr ++ new) /\
  ((more_data' = false /\ gen_next sz gen' = Return) \/
   (more_data' = more_data /\
    exists lst front, arr' = front ++ [lst] /\
                      max_latency * 1000 + end_ <= inject_Z (s_time lst))).
Proof.
  induction fuel as [|fuel IH]; intros arr gen md arr' gen' md' Hf; simpl in Hf; [discriminate|].
  destruct (rev arr) as [|lst rest] eqn:Er.
  - destruct (gen_next sz gen) as [s g| |] eqn:Eg; [| |discriminate].
    + destruct (IH _ _ _ _ _ _ Hf) as [[new Hnew] Hpost].
      split; [|exact Hpost]. exists (s :: new). rewrite Hnew, <- app_assoc. reflexivity.
    + injection Hf as <- <- <-. split; [exists []; now rewrite app_nil_r|]. left. auto.
  - destruct (Qlt_le_dec (inject_Z (s_time lst)) (max_latency * 1000 + end_)) as [Hlt|Hge].
    + destruct (gen_next sz gen) as [s g| |] eqn:Eg; [| |discriminate].
      * destruct (IH _ _ _ _ _ _ Hf) as [[new Hnew] Hpost].
        split; [|exact Hpost]. exists (s :: new). rewrite Hnew, <- app_assoc. reflexivity.
      * injection Hf as <- <- <-. split; [exists []; now rewrite app_nil_r|]. left. auto.
    + injection Hf as <- <- <-. split; [exists []; now rewrite app_nil_r|]. right.
      split; [reflexivity|]. exists lst, (rev rest). split; [|exact Hge].
      rewrite <- (rev_involutive arr), Er. reflexivity.
Qed.

Lemma fill_buffer_post_witness :
  exists arr' gen' more_data',
    fill_buffer 5 100 20 1000 [] (gen_init example_log 100) true =
      Some (arr', gen', more_data') /\
    (exists new, arr' = [] ++ new) /\
    ((more_data' = false /\ gen_next 100 gen' = Return) \/
     (more_data' = true /\
      exists lst front, arr' = front ++ [lst] /\ 20 * 1000 + 1000 <= inject_Z (s_time lst))).
Proof.
  do 3 eexists. split; [vm_compute; reflexivity|].
  apply (fill_buffer_post 100 20 1000 5 [] (gen_init example_log 100) true).
  vm_compute. reflexivity.
Defined.

Lemma candidate_bins_nonneg group_nr z :
  (0 <= group_nr)%Z -> In z (candidate_bins group_nr) -> (0 <= z)%Z.
Proof.
  intros Hg. unfold candidate_bins. destruct (_ || _); simpl.
  - intros [<-|[]]. change (Z.shiftl 1 6) with 64%Z. lia.
  - intros H. repeat (destruct H as [<-|H]; [lia|]). contradiction.
Qed.

(** X25. An empty first file counts as one column, that is -2
    histogram columns. With a group count that is not negative
    [guess_max_from_bins] finds no bin count for them and exits, so that
    [main] has no result whatever the fuel and the other files. *)
Theorem main_empty_first_file ctx rest :
  (0 <= ctx_group_nr ctx)%Z ->
  hist_columns_of ([] :: rest) = (-2)%Z /\
  guess_max_from_bins (ctx_group_nr ctx) (hist_columns_of ([] :: rest)) = None /\
  forall fuel, main fuel ctx ([] :: rest) = None.
Proof.
  intros Hg.
  assert (Hnone : guess_max_from_bins (ctx_group_nr ctx) (-2) = None).
  { destruct (guess_max_from_bins (ctx_group_nr ctx) (-2)) as [z|] eqn:E; [|reflexivity].
    exfalso. destruct (guess_max_in_candidates _ _ _ E ltac:(lia)) as (Hin & x & Hx & Hz).
    pose proof (candidate_bins_nonneg _ _ Hg Hin).
    assert (0 < 2 ^ x)%Z by (apply Z.pow_pos_nonneg; lia). lia. }
  split; [reflexivity|]. split; [exact Hnone|].
  intros fuel. unfold main. cbv zeta.
  change (hist_columns_of ([] :: rest)) with (-2)%Z. rewrite Hnone. reflexivity.
Qed.

Lemma main_empty_first_file_witness :
  guess_max_from_bins 20 (hist_columns_of [[]; [mk_row 5 [1; 0; 0; 0; 0]%Z]]) = None /\
  main 10 example_ctx [[]; [mk_row 5 [1; 0; 0; 0; 0]%Z]] = None.
Proof.
  destruct (main_empty_first_file example_ctx [[mk_row 5 [1; 0; 0; 0; 0]%Z]]) as (_ & H2 & H3).
  - simpl. lia.
  - split; [exact H2|exact (H3 10%nat)].
Defined.
